(** * InitializationScreen: the progress-to-phase state machine

    A shallow embedding of [src/screens/InitializationScreen.tsx]: the
    progress simulator [useSimulatedProgress], the module-ready ping effect,
    the phase progression effect and the timers they arm, run on a virtual
    clock under React's effect discipline (an effect runs after a render
    whose dependency array changed, after the cleanup its previous run
    returned; state updates requested inside an effect are applied together
    and cause one further render).

    Numbers: a JavaScript number is modelled as an exact rational ([Q]);
    IEEE rounding, NaN and the infinities are not modelled.  Times are
    integer milliseconds ([Z]). *)

From Stdlib Require Import ZArith QArith Qminmax Qround Lia Lqa Sorted.
From stdpp Require Import gmap strings list.

Local Open Scope Z_scope.

(** ** Types *)

(** [const MODULES = [...] as const] *)
Definition MODULES : list string :=
  ["Speech System"; "Voice Engine"; "Knowledge Core"; "Vision System"].

(** A [modules] object: its identity (dependency arrays compare objects by
    reference) and its own enumerable keys. *)
Record ModulesObj := { oid : nat; entries : gmap string bool }.

(** [export type InitProgress] *)
Record InitProgress := {
  systemReady : bool;
  percent : option Q;
  modules : option ModulesObj;
  message : option string;
}.

(** [const PHASE = { AWAKENING: 1, ACTIVATION: 2, MODULES: 3, STABLE: 4 }] *)
Inductive Phase := AWAKENING | ACTIVATION | INTEGRATION | STABLE.

Definition phase_val (p : Phase) : Z :=
  match p with
  | AWAKENING => 1
  | ACTIVATION => 2
  | INTEGRATION => 3
  | STABLE => 4
  end.

Definition phase_eqb (a b : Phase) : bool := phase_val a =? phase_val b.

(** What a pending [setTimeout] callback does when it fires. *)
Inductive TimerAction :=
  | ClearGlitch      (* () => setGlitching(false) *)
  | HoldElapsed      (* the 2500 ms callback: setFadeOut(true), arm onDone *)
  | CallOnDone       (* () => onDone?.() *)
  | AmbiencePlay.    (* () => ambience.play() *)

Record Timer := { tid : nat; due : Z; action : TimerAction }.

(** Calls made on the three audio handles. *)
Inductive Cue :=
  | PingPlay (m : string)      (* ping.play(), for module [m] of the loop *)
  | ChimePlay                  (* chime.play() *)
  | AmbienceFadeOut (ms : Z)   (* ambience.fadeOut(ms) *)
  | AmbienceStart.             (* ambience.play() *)

(** The component instance: hook state, effect bookkeeping, pending timers,
    the clock, and what has been observed from outside. *)
Record State := mkState {
  phase : Phase;                       (* useState(PHASE.AWAKENING) *)
  fadeOut : bool;                      (* useState(false) *)
  glitching : bool;                    (* useState(false) *)
  prevModulesRef : gmap string bool;   (* useRef({}) *)
  renderedPg : option InitProgress;    (* pg of the last render *)
  renderedPhase : Phase;               (* phase of the last render *)
  phaseCleanup : option nat;           (* () => clearTimeout(t), if returned *)
  ambienceTimer : option nat;          (* cleanup of the ambience effect *)
  timers : list Timer;                 (* pending setTimeout callbacks *)
  nextTimer : nat;                     (* next timer handle *)
  clock : Z;                           (* current time, ms *)
  cues : list Cue;                     (* audio calls so far, oldest first *)
  doneCalls : nat;                     (* invocations of onDone *)
  mounted : bool;
  lateCallbacks : nat;                 (* timer callbacks run after unmount *)
}.

(** ** State updates *)

Definition setPhase (p : Phase) (s : State) : State :=
  mkState p (fadeOut s) (glitching s) (prevModulesRef s) (renderedPg s)
    (renderedPhase s) (phaseCleanup s) (ambienceTimer s) (timers s)
    (nextTimer s) (clock s) (cues s) (doneCalls s) (mounted s)
    (lateCallbacks s).

Definition setFadeOut (b : bool) (s : State) : State :=
  mkState (phase s) b (glitching s) (prevModulesRef s) (renderedPg s)
    (renderedPhase s) (phaseCleanup s) (ambienceTimer s) (timers s)
    (nextTimer s) (clock s) (cues s) (doneCalls s) (mounted s)
    (lateCallbacks s).

Definition setGlitching (b : bool) (s : State) : State :=
  mkState (phase s) (fadeOut s) b (prevModulesRef s) (renderedPg s)
    (renderedPhase s) (phaseCleanup s) (ambienceTimer s) (timers s)
    (nextTimer s) (clock s) (cues s) (doneCalls s) (mounted s)
    (lateCallbacks s).

Definition setPrevModules (m : gmap string bool) (s : State) : State :=
  mkState (phase s) (fadeOut s) (glitching s) m (renderedPg s)
    (renderedPhase s) (phaseCleanup s) (ambienceTimer s) (timers s)
    (nextTimer s) (clock s) (cues s) (doneCalls s) (mounted s)
    (lateCallbacks s).

Definition setRendered (pg : option InitProgress) (p : Phase) (s : State)
  : State :=
  mkState (phase s) (fadeOut s) (glitching s) (prevModulesRef s) pg p
    (phaseCleanup s) (ambienceTimer s) (timers s) (nextTimer s) (clock s)
    (cues s) (doneCalls s) (mounted s) (lateCallbacks s).

Definition setPhaseCleanup (c : option nat) (s : State) : State :=
  mkState (phase s) (fadeOut s) (glitching s) (prevModulesRef s)
    (renderedPg s) (renderedPhase s) c (ambienceTimer s) (timers s)
    (nextTimer s) (clock s) (cues s) (doneCalls s) (mounted s)
    (lateCallbacks s).

Definition setAmbienceTimer (c : option nat) (s : State) : State :=
  mkState (phase s) (fadeOut s) (glitching s) (prevModulesRef s)
    (renderedPg s) (renderedPhase s) (phaseCleanup s) c (timers s)
    (nextTimer s) (clock s) (cues s) (doneCalls s) (mounted s)
    (lateCallbacks s).

Definition setTimers (l : list Timer) (n : nat) (s : State) : State :=
  mkState (phase s) (fadeOut s) (glitching s) (prevModulesRef s)
    (renderedPg s) (renderedPhase s) (phaseCleanup s) (ambienceTimer s) l n
    (clock s) (cues s) (doneCalls s) (mounted s) (lateCallbacks s).

Definition setClock (t : Z) (s : State) : State :=
  mkState (phase s) (fadeOut s) (glitching s) (prevModulesRef s)
    (renderedPg s) (renderedPhase s) (phaseCleanup s) (ambienceTimer s)
    (timers s) (nextTimer s) t (cues s) (doneCalls s) (mounted s)
    (lateCallbacks s).

Definition playCue (c : Cue) (s : State) : State :=
  mkState (phase s) (fadeOut s) (glitching s) (prevModulesRef s)
    (renderedPg s) (renderedPhase s) (phaseCleanup s) (ambienceTimer s)
    (timers s) (nextTimer s) (clock s) (cues s ++ [c]) (doneCalls s)
    (mounted s) (lateCallbacks s).

Definition callOnDone (s : State) : State :=
  mkState (phase s) (fadeOut s) (glitching s) (prevModulesRef s)
    (renderedPg s) (renderedPhase s) (phaseCleanup s) (ambienceTimer s)
    (timers s) (nextTimer s) (clock s) (cues s) (S (doneCalls s))
    (mounted s) (lateCallbacks s).

Definition setMounted (b : bool) (s : State) : State :=
  mkState (phase s) (fadeOut s) (glitching s) (prevModulesRef s)
    (renderedPg s) (renderedPhase s) (phaseCleanup s) (ambienceTimer s)
    (timers s) (nextTimer s) (clock s) (cues s) (doneCalls s) b
    (lateCallbacks s).

Definition noteLate (s : State) : State :=
  mkState (phase s) (fadeOut s) (glitching s) (prevModulesRef s)
    (renderedPg s) (renderedPhase s) (phaseCleanup s) (ambienceTimer s)
    (timers s) (nextTimer s) (clock s) (cues s) (doneCalls s) (mounted s)
    (S (lateCallbacks s)).

(** ** Timers *)

(** [setTimeout(cb, ms)]: returns the handle. *)
Definition setTimeout (a : TimerAction) (ms : Z) (s : State) : nat * State :=
  (nextTimer s,
   setTimers (timers s ++ [{| tid := nextTimer s; due := clock s + ms;
                              action := a |}])
             (S (nextTimer s)) s).

(** [clearTimeout(t)] *)
Definition clearTimeout (t : nat) (s : State) : State :=
  setTimers (filter (λ tm, tid tm ≠ t) (timers s)) (nextTimer s) s.

(** [setGlitching(true); setTimeout(() => setGlitching(false), ms)] *)
Definition pulseGlitch (ms : Z) (s : State) : State :=
  (setTimeout ClearGlitch ms (setGlitching true s)).2.

(** ** Reading a snapshot *)

(** [!!obj[m]] *)
Definition truthy (obj : gmap string bool) (m : string) : bool :=
  match obj !! m with
  | Some b => b
  | None => false
  end.

(** [pg?.modules ?? {}] *)
Definition modulesOrEmpty (pg : option InitProgress) : gmap string bool :=
  match pg ≫= modules with
  | Some o => entries o
  | None => ∅
  end.

(** [pg?.percent ?? 0] *)
Definition pctOf (pg : option InitProgress) : Q :=
  default 0%Q (pg ≫= percent).

(** [!!pg?.modules && Object.keys(pg.modules).length > 0] *)
Definition anyModuleData (pg : option InitProgress) : bool :=
  match pg ≫= modules with
  | Some o => bool_decide (0 < size (entries o))%nat
  | None => false
  end.

(** [MODULES.every(m => !!pg?.modules?.[m])] *)
Definition allReady (pg : option InitProgress) : bool :=
  forallb (truthy (modulesOrEmpty pg)) MODULES.

(** [pg?.systemReady], as a condition *)
Definition sysReady (pg : option InitProgress) : bool :=
  match pg with
  | Some p => systemReady p
  | None => false
  end.

(** [a > b] on numbers *)
Definition Qgtb (a b : Q) : bool := negb (Qle_bool a b).

(** [const clamp = (n, a = 0, b = 1) => Math.max(a, Math.min(b, n))] *)
Definition clamp (n a b : Q) : Q := Qmax a (Qmin b n).

(** ** The two effects *)

(** The body of [for (const m of MODULES)] in the ping effect. *)
Definition pingStep (prev now : gmap string bool) (acc : State) (m : string)
  : State :=
  let was := truthy prev m in
  let is_ := truthy now m in
  if negb was && is_
  then pulseGlitch 200 (playCue (PingPlay m) acc)
  else acc.

(** The module ready ping effect. *)
Definition pingEffect (pg : option InitProgress) (s : State) : State :=
  let now := modulesOrEmpty pg in
  let prev := prevModulesRef s in
  setPrevModules now (foldl (pingStep prev now) s MODULES).

(** The three guards of the phase progression effect, on the phase of the
    render the effect closes over. *)
Definition guardActivation (pg : option InitProgress) (ph : Phase) : bool :=
  phase_eqb ph AWAKENING && Qgtb (pctOf pg) 0.15.

Definition guardModules (pg : option InitProgress) (ph : Phase) : bool :=
  (phase_val ph <=? phase_val ACTIVATION)
  && (Qgtb (pctOf pg) 0.3 || anyModuleData pg).

Definition guardStable (pg : option InitProgress) (ph : Phase) : bool :=
  (sysReady pg || allReady pg) && negb (phase_eqb ph STABLE).

(** The phase progression effect.  [setPhase] calls are applied to the next
    render; every guard reads the phase of the current one. *)
Definition phaseEffect (pg : option InitProgress) (s : State) : State :=
  let ph := phase s in
  let s1 :=
    if guardActivation pg ph
    then pulseGlitch 300 (setPhase ACTIVATION s) else s in
  let s2 :=
    if guardModules pg ph
    then pulseGlitch 300 (setPhase INTEGRATION s1) else s1 in
  if guardStable pg ph then
    let s3 := pulseGlitch 500 (setPhase STABLE s2) in
    let s4 := playCue (AmbienceFadeOut 1200) (playCue ChimePlay s3) in
    let '(t, s5) := setTimeout HoldElapsed 2500 s4 in
    setPhaseCleanup (Some t) s5
  else setPhaseCleanup None s2.

(** The cleanup the previous run of the phase effect returned. *)
Definition runPhaseCleanup (s : State) : State :=
  match phaseCleanup s with
  | Some t => setPhaseCleanup None (clearTimeout t s)
  | None => s
  end.

(** The ambience start effect (dependency array [[]]). *)
Definition ambienceEffect (s : State) : State :=
  let '(t, s') := setTimeout AmbiencePlay 400 s in
  setAmbienceTimer (Some t) s'.

(** ** Dependency arrays *)

Definition sameNumber (a b : option Q) : bool :=
  match a, b with
  | Some x, Some y => Qeq_bool x y
  | None, None => true
  | _, _ => false
  end.

Definition sameObject (a b : option ModulesObj) : bool :=
  match a, b with
  | Some x, Some y => (oid x =? oid y)%nat
  | None, None => true
  | _, _ => false
  end.

Definition sameFlag (a b : option bool) : bool :=
  match a, b with
  | Some x, Some y => eqb x y
  | None, None => true
  | _, _ => false
  end.

(** [[pg?.modules]] *)
Definition pingDepsChanged (old new : option InitProgress) : bool :=
  negb (sameObject (old ≫= modules) (new ≫= modules)).

(** [[pg?.percent, pg?.modules, pg?.systemReady, phase]] *)
Definition phaseDepsChanged (old new : option InitProgress)
    (oldPhase newPhase : Phase) : bool :=
  negb (sameNumber (old ≫= percent) (new ≫= percent)
        && sameObject (old ≫= modules) (new ≫= modules)
        && sameFlag (systemReady <$> old) (systemReady <$> new)
        && phase_eqb oldPhase newPhase).

(** ** Renders *)

(** One render with [pg] and what follows it: the cleanups of the effects
    whose dependencies changed, then those effects in source order. *)
Definition commit (pg : option InitProgress) (s : State) : State :=
  let ph := phase s in
  let pingRuns := pingDepsChanged (renderedPg s) pg in
  let phaseRuns := phaseDepsChanged (renderedPg s) pg (renderedPhase s) ph in
  let s0 := if phaseRuns then runPhaseCleanup s else s in
  let s1 := if pingRuns then pingEffect pg s0 else s0 in
  let s2 := if phaseRuns then phaseEffect pg s1 else s1 in
  setRendered pg ph s2.

(** Renders caused by the state updates of the effects themselves, until
    the rendered phase is the current one. *)
Fixpoint rerender (fuel : nat) (pg : option InitProgress) (s : State)
  : State :=
  match fuel with
  | O => s
  | S f =>
      if phase_eqb (phase s) (renderedPhase s) then s
      else rerender f pg (commit pg s)
  end.

(** A new [pg] reaches the component: the host passes a new [progress], or
    the simulator calls [setP]. *)
Definition deliver (pg : option InitProgress) (s : State) : State :=
  rerender 4 pg (commit pg s).

(** The first render: every effect runs. *)
Definition initial : State :=
  mkState AWAKENING false false ∅ None AWAKENING None None [] 0 0 [] 0
    true 0.

Definition mount (pg : option InitProgress) : State :=
  let s1 := pingEffect pg initial in
  let s2 := ambienceEffect s1 in
  let s3 := phaseEffect pg s2 in
  rerender 4 pg (setRendered pg AWAKENING s3).

(** Unmount: the cleanups of the effects run, in source order. *)
Definition unmount (s : State) : State :=
  let s1 :=
    match ambienceTimer s with
    | Some t => setAmbienceTimer None (clearTimeout t s)
    | None => s
    end in
  setMounted false (runPhaseCleanup s1).

(** ** The clock *)

Definition earlier (a b : Timer) : bool :=
  (due a <? due b) || ((due a =? due b) && (tid a <=? tid b)%nat).

(** The pending timer that fires first. *)
Fixpoint earliest (l : list Timer) : option Timer :=
  match l with
  | [] => None
  | t :: r =>
      match earliest r with
      | None => Some t
      | Some u => Some (if earlier t u then t else u)
      end
  end.

(** A timer callback runs.  State setters do nothing once unmounted. *)
Definition fire (tm : Timer) (s : State) : State :=
  let s0 := setClock (Z.max (clock s) (due tm)) (clearTimeout (tid tm) s) in
  let s1 := if mounted s0 then s0 else noteLate s0 in
  match action tm with
  | ClearGlitch => if mounted s1 then setGlitching false s1 else s1
  | HoldElapsed =>
      let s2 := if mounted s1 then setFadeOut true s1 else s1 in
      (setTimeout CallOnDone 800 s2).2
  | CallOnDone => callOnDone s1
  | AmbiencePlay => playCue AmbienceStart s1
  end.

Fixpoint runTimers (fuel : nat) (deadline : Z) (s : State) : State :=
  match fuel with
  | O => s
  | S f =>
      match earliest (timers s) with
      | Some tm =>
          if due tm <=? deadline then runTimers f deadline (fire tm s) else s
      | None => s
      end
  end.

(** A [HoldElapsed] timer arms one more timer when it fires. *)
Definition weight (tm : Timer) : nat :=
  match action tm with
  | HoldElapsed => 2
  | _ => 1
  end.

Definition totalWeight (l : list Timer) : nat :=
  foldr (λ tm n, (weight tm + n)%nat) 0%nat l.

(** [dt] milliseconds pass: the timers due by then fire, earliest first. *)
Definition advance (dt : Z) (s : State) : State :=
  let deadline := clock s + Z.max 0 dt in
  setClock deadline (runTimers (totalWeight (timers s)) deadline s).

(** ** Runs *)

Inductive Event :=
  | Snapshot (pg : option InitProgress)
  | Advance (dt : Z)
  | Unmount.

Definition step (e : Event) (s : State) : State :=
  match e with
  | Snapshot pg => if mounted s then deliver pg s else s
  | Advance dt => advance dt s
  | Unmount => if mounted s then unmount s else s
  end.

Definition run (evs : list Event) (s : State) : State :=
  foldl (λ acc e, step e acc) s evs.

(** ** The simulator *)

(** [const ms = 12000] *)
Definition ms : Q := 12000.

(** [const stages = [{ t: 0.2, module: "Speech System" }, ...]] *)
Definition stages : list (Q * string) :=
  [(0.2, "Speech System"); (0.4, "Voice Engine");
   (0.65, "Knowledge Core"); (0.85, "Vision System")]%Q.

(** [Math.min(1, t / ms)] *)
Definition simPct (t : Q) : Q := Qmin 1 (t / ms).

(** [stages.forEach(s => { modules[s.module] = pct >= s.t })] *)
Definition simModules (pct : Q) : gmap string bool :=
  foldl (λ m s, <[s.2 := Qle_bool s.1 pct]> m) ∅ stages.

(** [Object.values(modules).filter(Boolean).length] *)
Definition readyCount (m : gmap string bool) : nat :=
  length (List.filter (λ b : bool, b) (map_to_list m).*2).

(** The snapshot [step] passes to [setP] at elapsed time [t]; [o] is the
    identity of the fresh [modules] object. *)
Definition simSnapshot (o : nat) (t : Q) : InitProgress :=
  let pct := simPct t in
  let mods := simModules pct in
  let ready :=
    Qle_bool 0.95 pct && (readyCount mods =? length MODULES)%nat in
  {| systemReady := ready;
     percent := Some pct;
     modules := Some {| oid := o; entries := mods |};
     message :=
       Some (if ready then "System Ready" else "Integrating modules...") |}.

(** The snapshots emitted over the animation frames at elapsed times
    [frames]: [step] asks for another frame only while [pct < 1]. *)
Fixpoint simRun (o : nat) (frames : list Q) : list InitProgress :=
  match frames with
  | [] => []
  | t :: rest =>
      simSnapshot o t
      :: (if Qle_bool 1 (simPct t) then [] else simRun (S o) rest)
  end.

(** ** What the screen shows of [percent] *)

(** [Math.round(clamp(pg?.percent ?? 0) * 100)], the label in the ring *)
Definition shownPercent (pg : option InitProgress) : Z :=
  Qfloor (clamp (pctOf pg) 0 1 * 100 + 0.5).

(** * Vocabulary of the statements *)

(** The phase the next render sees after one run of the phase effect: the
    last [setPhase] of the run wins. *)
Definition nextPhase (pg : option InitProgress) (ph : Phase) : Phase :=
  if guardStable pg ph then STABLE
  else if guardModules pg ph then INTEGRATION
  else if guardActivation pg ph then ACTIVATION
  else ph.

(** [!was && is] of the ping loop *)
Definition rising (prev now : gmap string bool) (m : string) : bool :=
  negb (truthy prev m) && truthy now m.

Definition risingEdges (prev now : gmap string bool) : list string :=
  List.filter (rising prev now) MODULES.

(** [n] glitch-clear timers with consecutive handles, all due at [d]. *)
Fixpoint glitchTimers (base : nat) (d : Z) (n : nat) : list Timer :=
  match n with
  | O => []
  | S k => {| tid := base; due := d; action := ClearGlitch |}
           :: glitchTimers (S base) d k
  end.

Definition timerSig (tm : Timer) : Z * TimerAction := (due tm, action tm).

(** The timers one run of the phase effect arms, oldest first. *)
Definition transitionTimers (pg : option InitProgress) (s : State)
  : list (Z * TimerAction) :=
  (if guardActivation pg (phase s) then [(clock s + 300, ClearGlitch)] else [])
  ++ (if guardModules pg (phase s) then [(clock s + 300, ClearGlitch)] else [])
  ++ (if guardStable pg (phase s)
      then [(clock s + 500, ClearGlitch); (clock s + 2500, HoldElapsed)]
      else []).

(** The same snapshot with [percent] clamped to [0, 1]. *)
Definition clampPercent (p : InitProgress) : InitProgress :=
  {| systemReady := systemReady p;
     percent := (λ q, clamp q 0 1) <$> percent p;
     modules := modules p;
     message := message p |}.

Definition isPing (m : string) (c : Cue) : bool :=
  match c with
  | PingPlay m' => String.eqb m m'
  | _ => false
  end.

(** How often the ping was played for module [m]. *)
Definition pings (m : string) (s : State) : nat :=
  length (List.filter (isPing m) (cues s)).

(** Between the renders of one delivery: a pending hold timer is the one
    the registered cleanup clears, and a render is still due. *)
Definition armedOK (s : State) : Prop :=
  doneCalls s = 0%nat /\
  (phase s = renderedPhase s -> phaseCleanup s = None) /\
  forall tm, tm ∈ timers s ->
    action tm <> CallOnDone /\
    (action tm = HoldElapsed ->
     phaseCleanup s = Some (tid tm) /\ phase s <> renderedPhase s).

(** After an event: no hold timer, no onDone timer, no onDone call. *)
Definition quiet (s : State) : Prop :=
  doneCalls s = 0%nat /\
  phaseCleanup s = None /\
  forall tm, tm ∈ timers s ->
    action tm <> CallOnDone /\ action tm <> HoldElapsed.

(** ** Inputs used in the examples *)

Definition snap (r : bool) (p : option Q) (m : option ModulesObj)
  : InitProgress :=
  {| systemReady := r; percent := p; modules := m; message := None |}.

Definition obj (o : nat) (l : list (string * bool)) : ModulesObj :=
  {| oid := o; entries := list_to_map l |}.

(** [{ systemReady: true }] *)
Definition readyNow : InitProgress := snap true None None.

(** [{ systemReady: false, modules: { "Speech System": true } }] *)
Definition speechReady (o : nat) : InitProgress :=
  snap false None (Some (obj o [("Speech System", true)])).

(** [{ systemReady: false, modules: { "Speech System": false } }] *)
Definition speechDown (o : nat) : InitProgress :=
  snap false None (Some (obj o [("Speech System", false)])).

(** [{ systemReady: false, percent: 0.1, modules: {} }] *)
Definition emptyModules : InitProgress :=
  snap false (Some 0.1%Q) (Some (obj 1 [])).

(** [{ systemReady: false, percent: 0.1, modules: { "Vision System": false } }] *)
Definition oneKey : InitProgress :=
  snap false (Some 0.1%Q) (Some (obj 1 [("Vision System", false)])).

(** [{ systemReady: false, percent: q }] *)
Definition atPercent (q : Q) : InitProgress := snap false (Some q) None.

(** * The rest of the screen *)

(** ** [useAudio]: the playback handle *)

(** What the hook keeps of its [HTMLAudioElement]. *)
Record Audio := { volume : Q; paused : bool; currentTime : Q }.

(** [tick(t)] of [fadeOut]: the new state of the element, and whether
    another animation frame is requested. *)
Definition fadeTick (start ms startVol t : Q) (a : Audio) : Audio * bool :=
  let k := Qmin 1 ((t - start) / ms) in
  let a' := {| volume := (startVol * (1 - k))%Q; paused := paused a;
               currentTime := currentTime a |} in
  if negb (Qle_bool 1 k) then (a', true)
  else ({| volume := volume a'; paused := true;
           currentTime := currentTime a' |}, false).

(** The ticks over the animation frames at times [frames]. *)
Fixpoint fadeFrames (start ms startVol : Q) (frames : list Q) (a : Audio)
  : Audio :=
  match frames with
  | [] => a
  | t :: rest =>
      let '(a', again) := fadeTick start ms startVol t a in
      if again then fadeFrames start ms startVol rest a' else a'
  end.

(** [fadeOut(ms)], called at time [start]. *)
Definition audioFadeOut (ms start : Q) (frames : list Q) (ref : option Audio)
  : option Audio :=
  match ref with
  | Some a => Some (fadeFrames start ms (volume a) frames a)
  | None => None
  end.

(** ** Picking a random character *)

(** [Math.floor(Math.random() * chars.length)], for the value [r] of
    [Math.random()] *)
Definition randomIndex (r : Q) (len : nat) : Z :=
  Qfloor (r * inject_Z (Z.of_nat len)).

(** [chars[Math.floor(Math.random() * chars.length)]] *)
Definition randomChar {A} (chars : list A) (r : Q) : option A :=
  if randomIndex r (length chars) <? 0 then None
  else chars !! Z.to_nat (randomIndex r (length chars)).

(** ** [MatrixRain] *)

(** [const fontSize = 14] *)
Definition fontSize : Z := 14.

(** [Math.floor(canvas.width / fontSize)] *)
Definition columnsOf (width : Z) : Z := width / fontSize.

(** [Array(columns).fill(1)] *)
Definition initDrops (width : Z) : list Z :=
  replicate (Z.to_nat (columnsOf width)) 1.

(** One column of the loop in [draw]: [r] is the value of the
    [Math.random()] of the reset test. *)
Definition dropStep (height : Z) (r : Q) (d : Z) : Z :=
  let y := d * fontSize in
  (if (height <? y) && Qgtb r 0.975 then 0 else d) + 1.

(** [draw()]: the drops after one pass. *)
Definition drawDrops (height : Z) (rs : nat -> Q) (drops : list Z) : list Z :=
  imap (λ i d, dropStep height (rs i) d) drops.

(** The drops after the passes drawn at canvas heights [heights], pass
    [k] with the random values [rs k]. *)
Fixpoint drawMany (k : nat) (heights : list Z) (rs : nat -> nat -> Q)
    (drops : list Z) : list Z :=
  match heights with
  | [] => drops
  | h :: rest => drawMany (S k) rest rs (drawDrops h (rs k) drops)
  end.

(** ** [EncryptedText] *)

(** The text shown by the interval callback at [frame]: the first
    [frame] characters are revealed, the others come from [rnd]. *)
Definition scramble {A} (frame : nat) (rnd : nat -> A) (text : list A)
  : list A :=
  imap (λ i c, if (i <? frame)%nat then c else rnd i) text.

(** The reveal interval: displayed text, [frame], and whether the interval
    is still set. *)
Record Reveal (A : Type) := mkReveal {
  displayText : list A;
  frameNo : nat;
  ticking : bool;
}.
Arguments mkReveal {A}.
Arguments displayText {A}.
Arguments frameNo {A}.
Arguments ticking {A}.

(** One run of the interval callback, with the random characters [rnd].
    The updater passed to [setDisplayText] reads the variable [frame] when
    React runs it: at once ([eager]), or with the next render, after
    [frame++]. *)
Definition revealTick {A} (text : list A) (eager : bool) (rnd : nat -> A)
    (st : Reveal A) : Reveal A :=
  if ticking st then
    mkReveal
      (scramble (if eager then frameNo st else S (frameNo st)) rnd text)
      (S (frameNo st))
      (negb (length text <? S (frameNo st))%nat)
  else st.

(** [n] periods of 50 ms after the effect ran with [reveal] true. *)
Fixpoint revealTicks {A} (text : list A) (eager : nat -> bool)
    (rnd : nat -> nat -> A) (n : nat) : Reveal A :=
  match n with
  | O => mkReveal [] 0 true
  | S k => revealTick text (eager k) (rnd k) (revealTicks text eager rnd k)
  end.

(** ** [CursorTrail] *)

Record Trail := { trailX : Q; trailY : Q; trailId : nat }.

(** [prev.slice(-n)] *)
Definition sliceLast {A} (n : nat) (l : list A) : list A :=
  drop (length l - n) l.

(** [onMove]: the counter [id] of the effect and the [trails] state. *)
Definition onMove (x y : Q) (st : nat * list Trail) : nat * list Trail :=
  let newTrail := {| trailX := x; trailY := y; trailId := st.1 |} in
  (S st.1, sliceLast 20 st.2 ++ [newTrail]).

(** The mouse moves through [moves] after the effect ran. *)
Definition trailsAfter (moves : list (Q * Q)) : nat * list Trail :=
  foldl (λ st m, onMove m.1 m.2 st) (0%nat, []) moves.

(** ** [CircularVisualizer] *)

(** [const barCount = 128] *)
Definition barCount : nat := 128.

(** [Math.floor(bufferLength / barCount)] *)
Definition barSlice (data : list Byte.byte) : nat := length data / barCount.

(** [dataArray[i * slice] || 0] *)
Definition barValue (data : list Byte.byte) (i : nat) : Z :=
  match data !! (i * barSlice data)%nat with
  | Some b => Z.of_N (Byte.to_N b)
  | None => 0
  end.

(** [value / 255] *)
Definition barPercent (data : list Byte.byte) (i : nat) : Q :=
  inject_Z (barValue data i) / 255.

(** [percent * 80] *)
Definition barHeight (data : list Byte.byte) (i : nat) : Q :=
  barPercent data i * 80.

(** The alpha of the stroke, [0.6 + percent * 0.4] *)
Definition barAlpha (data : list Byte.byte) (i : nat) : Q :=
  0.6 + barPercent data i * 0.4.

(** ** [AIOrb] *)

(** [Array.from(audioData).reduce((a, b) => a + b, 0)] *)
Definition byteSum (data : list Byte.byte) : Z :=
  foldl (λ a b, a + Z.of_N (Byte.to_N b)) 0 data.

(** [1 + (avg / 255) * 0.15] with [avg] the mean of [audioData] *)
Definition audioScaleOf (data : list Byte.byte) : Q :=
  let avg := (inject_Z (byteSum data) / inject_Z (Z.of_nat (length data)))%Q in
  1 + (avg / 255) * 0.15.

(** ** [NeuralNetwork] *)

(** The connections drawn between [n] nodes: for node [i] and index [j]
    into [nodes.slice(i + 1)], the key [(i, j)] and the two node indices
    [i] and [i + j + 1]. *)
Definition connections (n : nat) : list ((nat * nat) * (nat * nat)) :=
  flat_map (λ i, map (λ j, ((i, j), (i, i + j + 1)%nat))
                     (seq 0 (n - (i + 1))))
           (seq 0 n).

(** ** What the main component renders from its state *)

(** [{!fadeOut && (...)}]: whether the screen is rendered. *)
Definition screenShown (s : State) : bool := negb (fadeOut s).

(** [App]: [showMain] is set by the [onDone] it passes down. *)
Definition showMain (s : State) : bool := (0 <? doneCalls s)%nat.

(** ** Driving the component from the simulator *)

(** The events of a run without [progress]: before each simulated snapshot
    some time passes. *)
Fixpoint simEvents (gaps : list Z) (snaps : list InitProgress) : list Event :=
  match snaps with
  | [] => []
  | p :: rest =>
      match gaps with
      | [] => Snapshot (Some p) :: simEvents [] rest
      | g :: gs => Advance g :: Snapshot (Some p) :: simEvents gs rest
      end
  end.

(** Some frame at which the elapsed fraction has reached [c]. *)
Definition reached (c : Q) (frames : list Q) : bool :=
  existsb (λ t, Qle_bool c (simPct t)) frames.

(** The [modules] object rendered last, if any, was created before the
    object with identity [o]. *)
Definition olderThan (o : nat) (s : State) : Prop :=
  forall ob, renderedPg s ≫= modules = Some ob -> (oid ob < o)%nat.

(** How often a cue of one kind was played. *)
Definition cueCount (c : Cue -> bool) (s : State) : nat :=
  length (List.filter c (cues s)).

Definition isChime (c : Cue) : bool :=
  match c with ChimePlay => true | _ => false end.

Definition isAmbienceFade (c : Cue) : bool :=
  match c with AmbienceFadeOut _ => true | _ => false end.

Definition isAmbienceStart (c : Cue) : bool :=
  match c with AmbienceStart => true | _ => false end.

Definition isAmbienceTimer (tm : Timer) : bool :=
  match action tm with AmbiencePlay => true | _ => false end.

(** What holds of the ambience start after every effect and callback:
    a pending ambience timer is the one its cleanup clears, due 400 ms
    after mount, on a mounted component; start and pending timer together
    are at most one; the handle kept by the cleanup is an old one, names
    only ambience timers and is not the hold timer's; a mounted component
    that has not started the ambience still has the timer; and the
    ambience has not started before 400 ms. *)
Definition ambienceOK (s : State) : Prop :=
  (forall tm, tm ∈ timers s -> action tm = AmbiencePlay ->
     ambienceTimer s = Some (tid tm) /\ mounted s = true /\ due tm = 400)
  /\ (cueCount isAmbienceStart s
      + length (List.filter isAmbienceTimer (timers s)) <= 1)%nat
  /\ (forall a, ambienceTimer s = Some a ->
        (a < nextTimer s)%nat
        /\ (forall t, phaseCleanup s = Some t -> t <> a)
        /\ (forall tm, tm ∈ timers s -> tid tm = a ->
              action tm = AmbiencePlay))
  /\ (mounted s = true -> cueCount isAmbienceStart s = 0%nat ->
      exists tm, tm ∈ timers s /\ action tm = AmbiencePlay)
  /\ ((1 <= cueCount isAmbienceStart s)%nat -> 400 <= clock s).

(** Every pending timer is due in the future. *)
Definition timersAhead (s : State) : Prop :=
  forall tm, tm ∈ timers s -> clock s < due tm.

(** What can be observed of the component from outside. *)
Definition observed (s : State)
  : Phase * bool * bool * list Cue * nat * gmap string bool :=
  (phase s, fadeOut s, glitching s, cues s, doneCalls s, prevModulesRef s).

(** An unmounted component with nothing but glitch timers left. *)
Definition torndown (s : State) : Prop :=
  mounted s = false /\ forall tm, tm ∈ timers s -> action tm = ClearGlitch.

(** Chime and ambience fade-out have been played once if the phase is
    STABLE and not at all otherwise. *)
Definition stableCuesOK (s : State) : Prop :=
  cueCount isChime s = (if phase_eqb (phase s) STABLE then 1 else 0)%nat
  /\ cueCount isAmbienceFade s
     = (if phase_eqb (phase s) STABLE then 1 else 0)%nat.

(** * The phase never goes back *)

Section PhaseOrder.

Lemma phase_val_le_4 p : phase_val p <= 4.
Proof. destruct p; cbn; lia. Qed.

Lemma phase_val_inj p q : phase_val p = phase_val q -> p = q.
Proof. destruct p, q; cbn; intros; first [reflexivity|lia]. Qed.

Lemma phase_eqb_eq a b : phase_eqb a b = true <-> a = b.
Proof.
  unfold phase_eqb. rewrite Z.eqb_eq.
  split; [apply phase_val_inj|congruence].
Qed.

Lemma phase_eqb_sym a b : phase_eqb a b = phase_eqb b a.
Proof. unfold phase_eqb. apply Z.eqb_sym. Qed.

Variable pg : option InitProgress.

Lemma nextPhase_ge ph : phase_val ph <= phase_val (nextPhase pg ph).
Proof.
  unfold nextPhase, guardStable, guardModules, guardActivation, phase_eqb.
  destruct (sysReady pg || allReady pg),
    (Qgtb (pctOf pg) 0.3 || anyModuleData pg),
    (Qgtb (pctOf pg) 0.15), ph; simpl; lia.
Qed.

(** A second run of the effect on the same snapshot changes nothing. *)
Lemma nextPhase_idem ph : nextPhase pg (nextPhase pg ph) = nextPhase pg ph.
Proof.
  unfold nextPhase, guardStable, guardModules, guardActivation, phase_eqb.
  destruct (sysReady pg || allReady pg),
    (Qgtb (pctOf pg) 0.3 || anyModuleData pg),
    (Qgtb (pctOf pg) 0.15), ph; reflexivity.
Qed.

Lemma phase_phaseEffect s :
  phase (phaseEffect pg s) = nextPhase pg (phase s).
Proof.
  unfold phaseEffect, nextPhase.
  destruct (guardStable pg (phase s)), (guardModules pg (phase s)),
    (guardActivation pg (phase s)); reflexivity.
Qed.

End PhaseOrder.

(** ** One run of the ping effect, in closed form *)

Section PingLoop.

Variables prev now : gmap string bool.

Lemma pingLoop_eq l s :
  foldl (pingStep prev now) s l =
  let E := List.filter (rising prev now) l in
  mkState (phase s) (fadeOut s)
    (match E with [] => glitching s | _ => true end)
    (prevModulesRef s) (renderedPg s) (renderedPhase s) (phaseCleanup s)
    (ambienceTimer s)
    (timers s ++ glitchTimers (nextTimer s) (clock s + 200) (length E))
    (nextTimer s + length E) (clock s) (cues s ++ map PingPlay E)
    (doneCalls s) (mounted s) (lateCallbacks s).
Proof.
  revert s. induction l as [|m l IH]; intros s.
  - destruct s; cbn. rewrite !app_nil_r, Nat.add_0_r. reflexivity.
  - cbn [foldl List.filter]. rewrite IH. unfold pingStep.
    fold (rising prev now m).
    destruct (rising prev now m); [|reflexivity].
    destruct s; cbn. rewrite <- !app_assoc. cbn.
    f_equal; [destruct (List.filter _ l); reflexivity | lia].
Qed.

End PingLoop.

Lemma pingEffect_eq pg s :
  pingEffect pg s =
  let E := risingEdges (prevModulesRef s) (modulesOrEmpty pg) in
  mkState (phase s) (fadeOut s)
    (match E with [] => glitching s | _ => true end)
    (modulesOrEmpty pg) (renderedPg s) (renderedPhase s) (phaseCleanup s)
    (ambienceTimer s)
    (timers s ++ glitchTimers (nextTimer s) (clock s + 200) (length E))
    (nextTimer s + length E) (clock s) (cues s ++ map PingPlay E)
    (doneCalls s) (mounted s) (lateCallbacks s).
Proof. unfold pingEffect. rewrite pingLoop_eq. reflexivity. Qed.

Lemma glitchTimers_action base d n tm :
  tm ∈ glitchTimers base d n -> action tm = ClearGlitch /\ due tm = d.
Proof.
  revert base. induction n as [|n IH]; intros base; cbn; intros H.
  - inversion H.
  - apply elem_of_cons in H as [->|H]; [split; reflexivity|eauto].
Qed.

Lemma glitchTimers_sig base d n :
  map timerSig (glitchTimers base d n) = replicate n (d, ClearGlitch).
Proof.
  revert base. induction n as [|n IH]; intros base; cbn; [reflexivity|].
  rewrite IH. reflexivity.
Qed.

(** ** The phase through the effects and the events *)

Lemma phase_pingEffect pg s : phase (pingEffect pg s) = phase s.
Proof. rewrite pingEffect_eq. reflexivity. Qed.

Lemma phase_runPhaseCleanup s : phase (runPhaseCleanup s) = phase s.
Proof. unfold runPhaseCleanup. destruct (phaseCleanup s); reflexivity. Qed.

Lemma phase_commit pg s :
  phase (commit pg s) =
  if phaseDepsChanged (renderedPg s) pg (renderedPhase s) (phase s)
  then nextPhase pg (phase s) else phase s.
Proof.
  unfold commit. cbn [phase setRendered].
  destruct (phaseDepsChanged _ _ _ _), (pingDepsChanged _ _);
    rewrite ?phase_phaseEffect, ?phase_pingEffect, ?phase_runPhaseCleanup;
    reflexivity.
Qed.

Lemma renderedPhase_commit pg s : renderedPhase (commit pg s) = phase s.
Proof. reflexivity. Qed.

Lemma renderedPg_commit pg s : renderedPg (commit pg s) = pg.
Proof. reflexivity. Qed.

Lemma commit_ge pg s : phase_val (phase s) <= phase_val (phase (commit pg s)).
Proof.
  rewrite phase_commit.
  destruct (phaseDepsChanged _ _ _ _); [apply nextPhase_ge|lia].
Qed.

Lemma rerender_ge n pg s :
  phase_val (phase s) <= phase_val (phase (rerender n pg s)).
Proof.
  revert s. induction n as [|n IH]; intros s; cbn [rerender]; [lia|].
  destruct (phase_eqb _ _); [lia|].
  etransitivity; [apply (commit_ge pg)|apply IH].
Qed.

Lemma deliver_ge pg s : phase_val (phase s) <= phase_val (phase (deliver pg s)).
Proof.
  unfold deliver. etransitivity; [apply (commit_ge pg)|apply rerender_ge].
Qed.

Lemma phase_fire tm s : phase (fire tm s) = phase s.
Proof.
  destruct s as [? ? ? ? ? ? ? ? ? ? ? ? ? [] ?], tm as [? ? []]; reflexivity.
Qed.

Lemma phase_runTimers n d s : phase (runTimers n d s) = phase s.
Proof.
  revert s. induction n as [|n IH]; intros s; cbn [runTimers]; [reflexivity|].
  destruct (earliest (timers s)) as [tm|]; [|reflexivity].
  destruct (due tm <=? d); [|reflexivity].
  rewrite IH. apply phase_fire.
Qed.

Lemma phase_advance dt s : phase (advance dt s) = phase s.
Proof. unfold advance. cbn [phase setClock]. apply phase_runTimers. Qed.

Lemma phase_unmount s : phase (unmount s) = phase s.
Proof.
  unfold unmount. cbn [phase setMounted]. rewrite phase_runPhaseCleanup.
  destruct (ambienceTimer s); reflexivity.
Qed.

Lemma step_ge e s : phase_val (phase s) <= phase_val (phase (step e s)).
Proof.
  destruct e as [pg|dt|]; cbn [step].
  - destruct (mounted s); [apply deliver_ge|lia].
  - rewrite phase_advance. lia.
  - destruct (mounted s); [rewrite phase_unmount|]; lia.
Qed.

Lemma run_ge evs s : phase_val (phase s) <= phase_val (phase (run evs s)).
Proof.
  revert s. induction evs as [|e evs IH]; intros s; cbn; [lia|].
  etransitivity; [apply (step_ge e)|apply IH].
Qed.

Lemma run_app evs1 evs2 s : run (evs1 ++ evs2) s = run evs2 (run evs1 s).
Proof. unfold run. apply foldl_app. Qed.

(** C1.  Along every run of a mounted component (any snapshots, in any
    order, repeated or stale, with time passing and an unmount anywhere),
    the phase after a longer run is never below the phase after a prefix
    of it in the order AWAKENING(1) < ACTIVATION(2) < MODULES(3) <
    STABLE(4); and once a prefix has reached STABLE the phase stays
    STABLE. *)
Theorem phase_never_regresses :
  (forall pg0 evs1 evs2,
      phase_val (phase (run evs1 (mount pg0)))
      <= phase_val (phase (run (evs1 ++ evs2) (mount pg0))))
  /\ (forall pg0 evs1 evs2,
         phase (run evs1 (mount pg0)) = STABLE ->
         phase (run (evs1 ++ evs2) (mount pg0)) = STABLE).
Proof.
  split; intros pg0 evs1 evs2.
  - rewrite run_app. apply run_ge.
  - intros H. rewrite run_app. apply phase_val_inj.
    pose proof (run_ge evs2 (run evs1 (mount pg0))) as Hge.
    pose proof (phase_val_le_4 (phase (run evs2 (run evs1 (mount pg0)))))
      as Hle.
    rewrite H in Hge. cbn [phase_val] in Hge |- *. lia.
Qed.

Lemma phase_never_regresses_witness :
  phase (run [Snapshot None] (mount (Some readyNow))) = STABLE
  /\ phase (run ([Snapshot None] ++ [Snapshot (Some (atPercent 0)); Advance 5000])
              (mount (Some readyNow))) = STABLE.
Proof.
  assert (H : phase (run [Snapshot None] (mount (Some readyNow))) = STABLE)
    by (vm_compute; reflexivity).
  split; [exact H|].
  apply (proj2 phase_never_regresses (Some readyNow) [Snapshot None]), H.
Defined.

(** * The hold timer does not survive the render that follows it *)

Lemma quiet_armedOK s : quiet s -> armedOK s.
Proof.
  intros (Hd & Hc & Ht). split; [exact Hd|]. split; [intros _; exact Hc|].
  intros tm Hin. destruct (Ht tm Hin) as [H1 H2].
  split; [exact H1|]. intros; contradiction.
Qed.

Lemma armedOK_settled s : armedOK s -> phase s = renderedPhase s -> quiet s.
Proof.
  intros (Hd & Hc & Ht) Heq. split; [exact Hd|]. split; [exact (Hc Heq)|].
  intros tm Hin. destruct (Ht tm Hin) as [H1 H2]. split; [exact H1|].
  intros Ha. destruct (H2 Ha) as [_ Hne]. contradiction.
Qed.

Lemma phaseDepsChanged_phase old new a b :
  phase_eqb a b = false -> phaseDepsChanged old new a b = true.
Proof.
  intros H. unfold phaseDepsChanged. rewrite H, andb_false_r. reflexivity.
Qed.

Lemma phaseDepsUnchanged_phase old new a b :
  phaseDepsChanged old new a b = false -> a = b.
Proof.
  unfold phaseDepsChanged. intros H. apply negb_false_iff in H.
  apply andb_true_iff in H as [_ H]. apply phase_eqb_eq, H.
Qed.

Lemma quiet_pingEffect pg s : quiet s -> quiet (pingEffect pg s).
Proof.
  intros (Hd & Hc & Ht). rewrite pingEffect_eq.
  split; [exact Hd|]. split; [exact Hc|].
  cbn. intros tm Hin. apply elem_of_app in Hin as [Hin|Hin]; [auto|].
  apply glitchTimers_action in Hin as [-> _]. split; discriminate.
Qed.

(** The cleanup the STABLE branch returned clears the hold timer. *)
Lemma quiet_runPhaseCleanup s : armedOK s -> quiet (runPhaseCleanup s).
Proof.
  intros (Hd & _ & Ht). unfold runPhaseCleanup.
  destruct (phaseCleanup s) as [t|] eqn:Hc.
  - split; [exact Hd|]. split; [reflexivity|]. cbn. intros tm Hin.
    apply list_elem_of_filter in Hin as [Hne Hin].
    destruct (Ht tm Hin) as [H1 H2]. split; [exact H1|].
    intros Ha. destruct (H2 Ha) as [Heq _]. congruence.
  - split; [exact Hd|]. split; [exact Hc|]. intros tm Hin.
    destruct (Ht tm Hin) as [H1 H2]. split; [exact H1|].
    intros Ha. destruct (H2 Ha) as [Heq _]. congruence.
Qed.

(** The phase effect on a state with no hold timer, followed by the
    bookkeeping of the render. *)
Lemma armedOK_phaseEffect pg s :
  quiet s ->
  armedOK (setRendered pg (phase s) (phaseEffect pg s)).
Proof.
  intros (Hd & Hc & Ht). unfold phaseEffect.
  destruct (guardStable pg (phase s)) eqn:Hs.
  - assert (Hne : STABLE <> phase s).
    { unfold guardStable in Hs. apply andb_true_iff in Hs as [_ Hs].
      apply negb_true_iff in Hs. intros He. rewrite <- He in Hs.
      discriminate. }
    destruct (guardActivation pg (phase s)), (guardModules pg (phase s));
      (split; [exact Hd|]); (split; [cbn; intros; contradiction|]);
      cbn; intros tm Hin;
      repeat (apply elem_of_app in Hin as [Hin|Hin]);
      try (destruct (Ht tm Hin) as [H1 H2]; split; [exact H1|];
           intros; contradiction);
      apply list_elem_of_singleton in Hin; subst tm; cbn;
      (split; [discriminate|]); intros Ha; try discriminate;
      (split; [reflexivity|exact Hne]).
  - destruct (guardActivation pg (phase s)), (guardModules pg (phase s));
      (split; [exact Hd|]); (split; [cbn; intros; reflexivity|]);
      cbn; intros tm Hin;
      repeat (apply elem_of_app in Hin as [Hin|Hin]);
      try (destruct (Ht tm Hin) as [H1 H2]; split; [exact H1|];
           intros; contradiction);
      apply list_elem_of_singleton in Hin; subst tm; cbn;
      (split; discriminate).
Qed.

Lemma armedOK_commit pg s : armedOK s -> armedOK (commit pg s).
Proof.
  intros H. unfold commit.
  destruct (phaseDepsChanged (renderedPg s) pg (renderedPhase s) (phase s))
    eqn:Hp.
  - pose proof (quiet_runPhaseCleanup s H) as Hq.
    destruct (pingDepsChanged _ _).
    + apply (quiet_pingEffect pg) in Hq.
      pose proof (armedOK_phaseEffect pg _ Hq) as Ha.
      rewrite phase_pingEffect, phase_runPhaseCleanup in Ha. exact Ha.
    + pose proof (armedOK_phaseEffect pg _ Hq) as Ha.
      rewrite phase_runPhaseCleanup in Ha. exact Ha.
  - apply phaseDepsUnchanged_phase in Hp.
    assert (Hq : quiet s) by (apply armedOK_settled; [exact H|congruence]).
    apply quiet_armedOK.
    destruct (pingDepsChanged _ _); [apply (quiet_pingEffect pg) in Hq|];
      exact Hq.
Qed.

Lemma armedOK_rerender n pg s : armedOK s -> armedOK (rerender n pg s).
Proof.
  revert s. induction n as [|n IH]; intros s H; cbn [rerender]; [exact H|].
  destruct (phase_eqb _ _); [exact H|]. apply IH, armedOK_commit, H.
Qed.

(** ** Two renders settle a delivery *)

Lemma rerender_settled n pg s :
  phase s = renderedPhase s \/ phase s = nextPhase pg (renderedPhase s) ->
  phase (rerender (S (S n)) pg s) = renderedPhase (rerender (S (S n)) pg s)
  /\ phase (rerender (S (S n)) pg s) = phase s.
Proof.
  intros H. cbn [rerender].
  destruct (phase_eqb (phase s) (renderedPhase s)) eqn:He.
  - split; [apply phase_eqb_eq, He|reflexivity].
  - destruct H as [H|H]; [apply phase_eqb_eq in H; congruence|].
    assert (Hc : phase (commit pg s) = phase s).
    { rewrite phase_commit.
      rewrite phaseDepsChanged_phase by (rewrite phase_eqb_sym; exact He).
      rewrite H at 1. rewrite nextPhase_idem. symmetry. exact H. }
    rewrite renderedPhase_commit, Hc.
    replace (phase_eqb (phase s) (phase s)) with true
      by (symmetry; apply phase_eqb_eq; reflexivity).
    rewrite renderedPhase_commit. split; exact Hc.
Qed.

Lemma commit_then_rerender pg s :
  phase (commit pg s) = renderedPhase (commit pg s)
  \/ phase (commit pg s) = nextPhase pg (renderedPhase (commit pg s)).
Proof.
  rewrite renderedPhase_commit, phase_commit.
  destruct (phaseDepsChanged _ _ _ _); [right|left]; reflexivity.
Qed.

Lemma deliver_settled pg s :
  phase (deliver pg s) = renderedPhase (deliver pg s).
Proof. unfold deliver. apply rerender_settled, commit_then_rerender. Qed.

Lemma phase_deliver pg s :
  phase (deliver pg s) =
  if phaseDepsChanged (renderedPg s) pg (renderedPhase s) (phase s)
  then nextPhase pg (phase s) else phase s.
Proof.
  unfold deliver.
  rewrite (proj2 (rerender_settled 2 pg _ (commit_then_rerender pg s))).
  apply phase_commit.
Qed.

Lemma phase_before_phaseEffect pg :
  phase (ambienceEffect (pingEffect pg initial)) = AWAKENING.
Proof.
  unfold ambienceEffect. cbn [setTimeout phase setAmbienceTimer setTimers].
  apply phase_pingEffect.
Qed.

Lemma first_render_then_rerender pg :
  let s := setRendered pg AWAKENING
             (phaseEffect pg (ambienceEffect (pingEffect pg initial))) in
  phase s = renderedPhase s \/ phase s = nextPhase pg (renderedPhase s).
Proof.
  right. cbn [phase renderedPhase setRendered].
  rewrite phase_phaseEffect, phase_before_phaseEffect. reflexivity.
Qed.

Lemma mount_settled pg : phase (mount pg) = renderedPhase (mount pg).
Proof. unfold mount. apply rerender_settled, first_render_then_rerender. Qed.

Lemma phase_mount pg : phase (mount pg) = nextPhase pg AWAKENING.
Proof.
  unfold mount.
  rewrite (proj2 (rerender_settled 2 pg _ (first_render_then_rerender pg))).
  cbn [phase setRendered].
  rewrite phase_phaseEffect, phase_before_phaseEffect. reflexivity.
Qed.

(** * No run ever calls onDone *)

Lemma quiet_deliver pg s : quiet s -> quiet (deliver pg s).
Proof.
  intros H. apply armedOK_settled; [|apply deliver_settled].
  unfold deliver. apply armedOK_rerender, armedOK_commit, quiet_armedOK, H.
Qed.

Lemma quiet_initial : quiet initial.
Proof.
  split; [reflexivity|]. split; [reflexivity|]. intros tm Hin. inversion Hin.
Qed.

Lemma quiet_ambienceEffect s : quiet s -> quiet (ambienceEffect s).
Proof.
  intros (Hd & Hc & Ht). split; [exact Hd|]. split; [exact Hc|].
  cbn. intros tm Hin. apply elem_of_app in Hin as [Hin|Hin]; [auto|].
  apply list_elem_of_singleton in Hin. subst tm. split; discriminate.
Qed.

Lemma quiet_mount pg : quiet (mount pg).
Proof.
  apply armedOK_settled; [|apply mount_settled].
  unfold mount. apply armedOK_rerender.
  rewrite <- (phase_before_phaseEffect pg) at 1.
  apply (armedOK_phaseEffect pg (ambienceEffect (pingEffect pg initial))).
  apply quiet_ambienceEffect, quiet_pingEffect, quiet_initial.
Qed.

Lemma earliest_elem l tm : earliest l = Some tm -> tm ∈ l.
Proof.
  revert tm. induction l as [|t r IH]; intros tm; cbn; [discriminate|].
  destruct (earliest r) as [u|].
  - intros [= <-]. destruct (earlier t u);
      [apply list_elem_of_here|apply list_elem_of_further, IH; reflexivity].
  - intros [= <-]. apply list_elem_of_here.
Qed.

Lemma timers_fire tm s :
  timers (fire tm s) =
  filter (λ x, tid x ≠ tid tm) (timers s)
  ++ match action tm with
     | HoldElapsed =>
         [{| tid := nextTimer s; due := Z.max (clock s) (due tm) + 800;
             action := CallOnDone |}]
     | _ => []
     end.
Proof.
  destruct s as [? ? ? ? ? ? ? ? ? ? ? ? ? [] ?], tm as [? ? []]; cbn;
    rewrite ?app_nil_r; reflexivity.
Qed.

Lemma quiet_fire tm s : quiet s -> tm ∈ timers s -> quiet (fire tm s).
Proof.
  intros (Hd & Hc & Ht) Hin. destruct (Ht tm Hin) as [H1 H2].
  assert (Hf : forall u, u ∈ timers (fire tm s) ->
                         action u <> CallOnDone /\ action u <> HoldElapsed).
  { intros u Hu. rewrite timers_fire in Hu.
    apply elem_of_app in Hu as [Hu|Hu].
    - apply list_elem_of_filter in Hu as [_ Hu]. auto.
    - destruct (action tm); try contradiction; inversion Hu. }
  split; [|split; [|exact Hf]];
    destruct s as [? ? ? ? ? ? ? ? ? ? ? ? ? [] ?], tm as [? ? []];
    cbn in *; first [assumption|contradiction].
Qed.

Lemma quiet_runTimers n d s : quiet s -> quiet (runTimers n d s).
Proof.
  revert s. induction n as [|n IH]; intros s H; cbn [runTimers]; [exact H|].
  destruct (earliest (timers s)) as [tm|] eqn:He; [|exact H].
  destruct (due tm <=? d); [|exact H].
  apply IH, quiet_fire; [exact H|apply earliest_elem, He].
Qed.

Lemma quiet_advance dt s : quiet s -> quiet (advance dt s).
Proof. intros H. unfold advance. apply (quiet_runTimers _ _ s H). Qed.

Lemma quiet_clearTimeout t s : quiet s -> quiet (clearTimeout t s).
Proof.
  intros (Hd & Hc & Ht). split; [exact Hd|]. split; [exact Hc|].
  cbn. intros tm Hin. apply list_elem_of_filter in Hin as [_ Hin]. auto.
Qed.

Lemma quiet_unmount s : quiet s -> quiet (unmount s).
Proof.
  intros H. unfold unmount.
  apply (quiet_runPhaseCleanup
           (match ambienceTimer s with
            | Some t => setAmbienceTimer None (clearTimeout t s)
            | None => s
            end)).
  apply quiet_armedOK.
  destruct (ambienceTimer s) as [t|]; [apply (quiet_clearTimeout t)|]; exact H.
Qed.

Lemma quiet_step e s : quiet s -> quiet (step e s).
Proof.
  intros H. destruct e as [pg|dt|]; cbn [step].
  - destruct (mounted s); [apply quiet_deliver|]; exact H.
  - apply quiet_advance, H.
  - destruct (mounted s); [apply quiet_unmount|]; exact H.
Qed.

Lemma quiet_run evs s : quiet s -> quiet (run evs s).
Proof.
  revert s. induction evs as [|e evs IH]; intros s H; cbn; [exact H|].
  apply IH, quiet_step, H.
Qed.

(** Every state a component instance reaches. *)
Lemma quiet_reachable pg0 evs : quiet (run evs (mount pg0)).
Proof. apply quiet_run, quiet_mount. Qed.

(** C2.  The code does not do what the claim says.  Whatever is passed at
    mount and whatever happens afterwards, onDone has been called zero
    times and neither the 2500 ms hold timer nor the 800 ms onDone timer is
    pending: the render caused by [setPhase(PHASE.STABLE)] has [phase] in
    its dependency array, so the cleanup [() => clearTimeout(t)] runs before
    the timer can fire.  In particular, mounted with [systemReady: true]
    and left alone for 63.3 s, the component is STABLE, has not faded out
    and has not called onDone. *)
Theorem onDone_never_called :
  (forall pg0 evs,
      doneCalls (run evs (mount pg0)) = 0%nat
      /\ forall tm, tm ∈ timers (run evs (mount pg0)) ->
                    action tm <> CallOnDone /\ action tm <> HoldElapsed)
  /\ (let s := run [Advance 2500; Advance 800; Advance 60000]
                   (mount (Some readyNow)) in
      phase s = STABLE /\ clock s = 63300 /\ timers s = []
      /\ fadeOut s = false /\ doneCalls s = 0%nat).
Proof.
  split.
  - intros pg0 evs. destruct (quiet_reachable pg0 evs) as (Hd & _ & Ht).
    split; assumption.
  - vm_compute. repeat split; reflexivity.
Qed.

(** ** [advance] fires every timer that is due *)

Lemma weight_pos tm : (1 <= weight tm)%nat.
Proof. unfold weight. destruct (action tm); lia. Qed.

Lemma totalWeight_app l k :
  totalWeight (l ++ k) = (totalWeight l + totalWeight k)%nat.
Proof.
  unfold totalWeight. induction l as [|t l IH]; cbn; [reflexivity|].
  rewrite IH. lia.
Qed.

Lemma totalWeight_filter_le (P : Timer -> Prop)
    `{!forall x, Decision (P x)} l :
  (totalWeight (filter P l) <= totalWeight l)%nat.
Proof.
  induction l as [|t l IH]; [reflexivity|].
  rewrite filter_cons.
  destruct (decide (P t)); cbn; unfold totalWeight in *; lia.
Qed.

Lemma totalWeight_filter_out (P : Timer -> Prop)
    `{!forall x, Decision (P x)} l tm :
  tm ∈ l -> ~ P tm ->
  (totalWeight (filter P l) + weight tm <= totalWeight l)%nat.
Proof.
  induction l as [|t l IH]; intros Hin Hn; [inversion Hin|].
  rewrite filter_cons. apply elem_of_cons in Hin as [<-|Hin].
  - rewrite decide_False by exact Hn.
    pose proof (totalWeight_filter_le P l). cbn. unfold totalWeight in *. lia.
  - specialize (IH Hin Hn). destruct (decide (P t)); cbn;
      unfold totalWeight in *; lia.
Qed.

Lemma fire_weight tm s :
  tm ∈ timers s ->
  (totalWeight (timers (fire tm s)) < totalWeight (timers s))%nat.
Proof.
  intros Hin. rewrite timers_fire, totalWeight_app.
  pose proof (totalWeight_filter_out (λ x, tid x ≠ tid tm) (timers s) tm Hin)
    as H.
  assert (Hn : ~ tid tm ≠ tid tm) by (intros Hc; apply Hc; reflexivity).
  specialize (H Hn). pose proof (weight_pos tm) as Hw.
  unfold weight in *. destruct (action tm); cbn in *; lia.
Qed.

Lemma earlier_due a b : earlier a b = true -> due a <= due b.
Proof.
  unfold earlier. intros H. apply orb_true_iff in H as [H|H].
  - apply Z.ltb_lt in H. lia.
  - apply andb_true_iff in H as [H _]. apply Z.eqb_eq in H. lia.
Qed.

Lemma earlier_flip a b : earlier a b = false -> due b <= due a.
Proof.
  unfold earlier. intros H. apply orb_false_iff in H as [H _].
  apply Z.ltb_ge in H. exact H.
Qed.

Lemma earliest_least l tm u :
  earliest l = Some tm -> u ∈ l -> due tm <= due u.
Proof.
  revert tm. induction l as [|t r IH]; intros tm He Hu; [inversion Hu|].
  cbn in He. destruct (earliest r) as [v|] eqn:Hr.
  - injection He as <-. apply elem_of_cons in Hu as [->|Hu].
    + destruct (earlier t v) eqn:Hv; [lia|apply earlier_flip, Hv].
    + specialize (IH v eq_refl Hu).
      destruct (earlier t v) eqn:Hv; [apply earlier_due in Hv; lia|exact IH].
  - injection He as <-. apply elem_of_cons in Hu as [->|Hu]; [lia|].
    destruct r; [inversion Hu|]. cbn in Hr.
    destruct (earliest r); discriminate.
Qed.

Lemma earliest_None l : earliest l = None -> l = [].
Proof.
  destruct l as [|t r]; [reflexivity|]. cbn.
  destruct (earliest r); discriminate.
Qed.

Lemma runTimers_complete n d s tm :
  (totalWeight (timers s) <= n)%nat ->
  tm ∈ timers (runTimers n d s) -> d < due tm.
Proof.
  revert s. induction n as [|n IH]; intros s Hw Hin; cbn [runTimers] in Hin.
  - destruct (timers s) as [|t l]; [inversion Hin|].
    pose proof (weight_pos t). cbn in Hw. lia.
  - destruct (earliest (timers s)) as [u|] eqn:He.
    + destruct (due u <=? d) eqn:Hd.
      * apply (IH (fire u s)); [|exact Hin].
        pose proof (fire_weight u s (earliest_elem _ _ He)). lia.
      * apply Z.leb_gt in Hd.
        pose proof (earliest_least _ _ _ He Hin). lia.
    + apply earliest_None in He. rewrite He in Hin. inversion Hin.
Qed.

(** After [advance dt], whatever is still pending is due later. *)
Lemma advance_fires_all_due dt s tm :
  tm ∈ timers (advance dt s) -> clock s + Z.max 0 dt < due tm.
Proof.
  unfold advance. cbn [timers setClock]. apply runTimers_complete.
  reflexivity.
Qed.

(** * Module pings *)

Lemma cues_phaseEffect pg s :
  cues (phaseEffect pg s) =
  cues s ++ (if guardStable pg (phase s)
             then [ChimePlay; AmbienceFadeOut 1200] else []).
Proof.
  unfold phaseEffect.
  destruct (guardStable pg (phase s)), (guardActivation pg (phase s)),
    (guardModules pg (phase s)); cbn; rewrite <- ?app_assoc, ?app_nil_r;
    reflexivity.
Qed.

Lemma cues_runPhaseCleanup s : cues (runPhaseCleanup s) = cues s.
Proof. unfold runPhaseCleanup. destruct (phaseCleanup s); reflexivity. Qed.

Lemma prevModulesRef_phaseEffect pg s :
  prevModulesRef (phaseEffect pg s) = prevModulesRef s.
Proof.
  unfold phaseEffect.
  destruct (guardStable pg (phase s)), (guardActivation pg (phase s)),
    (guardModules pg (phase s)); reflexivity.
Qed.

Lemma prevModulesRef_runPhaseCleanup s :
  prevModulesRef (runPhaseCleanup s) = prevModulesRef s.
Proof. unfold runPhaseCleanup. destruct (phaseCleanup s); reflexivity. Qed.

Lemma sameObject_refl a : sameObject a a = true.
Proof. destruct a as [o|]; cbn; [apply Nat.eqb_refl|reflexivity]. Qed.

Lemma pingDepsChanged_same pg : pingDepsChanged pg pg = false.
Proof. unfold pingDepsChanged. rewrite sameObject_refl. reflexivity. Qed.

Lemma NoDup_MODULES : NoDup MODULES.
Proof. apply (bool_decide_unpack (NoDup MODULES)). vm_compute. exact I. Qed.

(** Among the pings of one pass over a duplicate-free list, module [m]
    has one if it passes the test and none otherwise. *)
Lemma pings_edges m (f : string -> bool) l :
  NoDup l -> m ∈ l ->
  length (List.filter (isPing m) (map PingPlay (List.filter f l))) =
  if f m then 1%nat else 0%nat.
Proof.
  induction 1 as [|x l Hx Hnd IH]; intros Hin; [inversion Hin|].
  assert (Hnot : forall k, m ∉ k ->
            length (List.filter (isPing m) (map PingPlay (List.filter f k)))
            = 0%nat).
  { induction k as [|y k IHk]; intros Hk; [reflexivity|].
    apply not_elem_of_cons in Hk as [Hne Hk]. cbn.
    destruct (f y); cbn; [|auto].
    destruct (String.eqb_spec m y); [contradiction|auto]. }
  apply elem_of_cons in Hin as [->|Hin].
  - cbn. destruct (f x); cbn; [rewrite String.eqb_refl; cbn|];
      rewrite Hnot by exact Hx; reflexivity.
  - cbn. assert (Hne : m <> x) by (intros ->; contradiction).
    destruct (f x); cbn; [|auto].
    destruct (String.eqb_spec m x); [contradiction|auto].
Qed.

Lemma pings_phaseEffect m pg s : pings m (phaseEffect pg s) = pings m s.
Proof.
  unfold pings. rewrite cues_phaseEffect, List.filter_app, length_app.
  destruct (guardStable _ _); cbn; lia.
Qed.

Lemma pings_runPhaseCleanup m s : pings m (runPhaseCleanup s) = pings m s.
Proof. unfold pings. rewrite cues_runPhaseCleanup. reflexivity. Qed.

Lemma pings_pingEffect m pg s :
  m ∈ MODULES ->
  pings m (pingEffect pg s) =
  (pings m s +
   if rising (prevModulesRef s) (modulesOrEmpty pg) m then 1 else 0)%nat.
Proof.
  intros Hm. rewrite pingEffect_eq. unfold pings. cbn [cues].
  rewrite List.filter_app, length_app. f_equal.
  apply pings_edges; [apply NoDup_MODULES|exact Hm].
Qed.

Lemma pings_setRendered m pg p s : pings m (setRendered pg p s) = pings m s.
Proof. reflexivity. Qed.

Lemma pings_commit m pg s :
  m ∈ MODULES ->
  pings m (commit pg s) =
  (pings m s +
   if pingDepsChanged (renderedPg s) pg
      && rising (prevModulesRef s) (modulesOrEmpty pg) m
   then 1 else 0)%nat.
Proof.
  intros Hm. unfold commit. rewrite pings_setRendered.
  destruct (phaseDepsChanged _ _ _ _), (pingDepsChanged _ _); cbn [andb];
    rewrite ?pings_phaseEffect, ?(pings_pingEffect m pg _ Hm),
      ?pings_runPhaseCleanup, ?prevModulesRef_runPhaseCleanup; lia.
Qed.

Lemma prevModulesRef_commit pg s :
  prevModulesRef (commit pg s) =
  if pingDepsChanged (renderedPg s) pg then modulesOrEmpty pg
  else prevModulesRef s.
Proof.
  unfold commit. cbn [prevModulesRef setRendered].
  destruct (phaseDepsChanged _ _ _ _), (pingDepsChanged _ _);
    rewrite ?prevModulesRef_phaseEffect, ?pingEffect_eq,
      ?prevModulesRef_runPhaseCleanup; reflexivity.
Qed.

Lemma rerender_pings n m pg s :
  m ∈ MODULES -> renderedPg s = pg ->
  pings m (rerender n pg s) = pings m s
  /\ prevModulesRef (rerender n pg s) = prevModulesRef s.
Proof.
  intros Hm. revert s. induction n as [|n IH]; intros s Hpg; cbn [rerender];
    [split; reflexivity|].
  destruct (phase_eqb _ _); [split; reflexivity|].
  destruct (IH (commit pg s) (renderedPg_commit pg s)) as [-> ->].
  rewrite pings_commit, prevModulesRef_commit by exact Hm.
  rewrite Hpg, pingDepsChanged_same. cbn [andb]. split; [lia|reflexivity].
Qed.

(** C3, as the code has it.  When a [pg] is delivered, the ping for a
    module [m] of MODULES is played once more exactly if the [modules]
    object is a new one and [m] is ready in it but was not ready (false or
    absent) in the object the ping effect saw last; otherwise it is not
    played, so never on a true-to-true repeat.  The effect then remembers
    the new object, not the set of modules already announced: after a
    true-to-false regression a later true is a rising edge again. *)
Theorem ping_on_each_rising_edge (s : State) (pg : option InitProgress)
    (m : string) :
  m ∈ MODULES ->
  pings m (deliver pg s) =
  (pings m s +
   if pingDepsChanged (renderedPg s) pg
      && rising (prevModulesRef s) (modulesOrEmpty pg) m
   then 1 else 0)%nat
  /\ prevModulesRef (deliver pg s) =
     (if pingDepsChanged (renderedPg s) pg then modulesOrEmpty pg
      else prevModulesRef s).
Proof.
  intros Hm. unfold deliver.
  destruct (rerender_pings 4 m pg (commit pg s) Hm (renderedPg_commit pg s))
    as [-> ->].
  rewrite pings_commit, prevModulesRef_commit by exact Hm.
  split; reflexivity.
Qed.

Lemma ping_on_each_rising_edge_witness :
  "Speech System" ∈ MODULES
  /\ pings "Speech System" (deliver (Some (speechReady 1)) (mount None))
     = 1%nat
  /\ pings "Speech System"
       (deliver (Some (speechReady 2))
          (deliver (Some (speechReady 1)) (mount None))) = 1%nat.
Proof.
  assert (Hm : "Speech System" ∈ MODULES) by apply list_elem_of_here.
  split; [exact Hm|]. split.
  - rewrite (proj1 (ping_on_each_rising_edge (mount None)
                      (Some (speechReady 1)) "Speech System" Hm)).
    vm_compute. reflexivity.
  - rewrite (proj1 (ping_on_each_rising_edge
                      (deliver (Some (speechReady 1)) (mount None))
                      (Some (speechReady 2)) "Speech System" Hm)).
    vm_compute. reflexivity.
Defined.

(** The claim as stated fails: ready, not ready, ready again plays the
    ping for the same module twice in one lifetime. *)
Lemma ping_replayed_after_regression :
  pings "Speech System"
    (run [Snapshot (Some (speechReady 1)); Snapshot (Some (speechDown 2));
          Snapshot (Some (speechReady 3))] (mount None)) = 2%nat.
Proof. vm_compute. reflexivity. Qed.

(** * Deliveries once STABLE *)

Lemma phaseEffect_stable pg s :
  phase s = STABLE -> phaseEffect pg s = setPhaseCleanup None s.
Proof.
  intros H. unfold phaseEffect, guardActivation, guardModules, guardStable.
  rewrite H. cbn. rewrite andb_false_r. reflexivity.
Qed.

Lemma deliver_stable pg s :
  phase s = STABLE -> phaseCleanup s = None ->
  deliver pg s =
  let E := if pingDepsChanged (renderedPg s) pg
           then risingEdges (prevModulesRef s) (modulesOrEmpty pg) else [] in
  mkState STABLE (fadeOut s)
    (match E with [] => glitching s | _ => true end)
    (if pingDepsChanged (renderedPg s) pg then modulesOrEmpty pg
     else prevModulesRef s)
    pg STABLE None (ambienceTimer s)
    (timers s ++ glitchTimers (nextTimer s) (clock s + 200) (length E))
    (nextTimer s + length E) (clock s) (cues s ++ map PingPlay E)
    (doneCalls s) (mounted s) (lateCallbacks s).
Proof.
  intros Hp Hc. unfold deliver, commit.
  assert (H0 : runPhaseCleanup s = s)
    by (unfold runPhaseCleanup; rewrite Hc; reflexivity).
  rewrite H0.
  replace (if phaseDepsChanged (renderedPg s) pg (renderedPhase s) (phase s)
           then s else s) with s by (destruct (phaseDepsChanged _ _ _ _); reflexivity).
  set (s1 := if pingDepsChanged (renderedPg s) pg then pingEffect pg s else s).
  assert (H1 : phase s1 = STABLE).
  { unfold s1. destruct (pingDepsChanged _ _);
      [rewrite phase_pingEffect|]; exact Hp. }
  assert (H2 : phaseCleanup s1 = None).
  { unfold s1. destruct (pingDepsChanged _ _);
      [rewrite pingEffect_eq|]; exact Hc. }
  rewrite phaseEffect_stable by exact H1.
  assert (H4 : (if phaseDepsChanged (renderedPg s) pg (renderedPhase s) (phase s)
                then setPhaseCleanup None s1 else s1) = s1).
  { destruct (phaseDepsChanged _ _ _ _); [|reflexivity].
    destruct s1; cbn in *; subst; reflexivity. }
  rewrite H4, Hp. cbn [rerender phase renderedPhase setRendered].
  rewrite H1. cbn.
  unfold s1. destruct (pingDepsChanged _ _).
  - rewrite pingEffect_eq. destruct s; cbn in *; subst. reflexivity.
  - destruct s; cbn in *; subst. rewrite !app_nil_r, Nat.add_0_r. reflexivity.
Qed.

(** C4, as the code has it.  Once a component instance is STABLE (and
    still mounted), delivering any further [pg] leaves the phase STABLE,
    calls and schedules no onDone, leaves the fade-out flag alone and plays
    neither the chime nor the ambience fade-out again.  The module ping is
    not gated by the phase: for every module with a rising edge in a new
    [modules] object the ping is played, the glitch flag is set and a 200 ms
    clear timer is armed; nothing else happens. *)
Theorem stable_snapshot_effects (pg0 : option InitProgress)
    (evs : list Event) (pg : option InitProgress) :
  let s := run evs (mount pg0) in
  let s' := step (Snapshot pg) s in
  let E := if pingDepsChanged (renderedPg s) pg
           then risingEdges (prevModulesRef s) (modulesOrEmpty pg) else [] in
  phase s = STABLE -> mounted s = true ->
  phase s' = STABLE
  /\ doneCalls s' = doneCalls s
  /\ fadeOut s' = fadeOut s
  /\ cues s' = cues s ++ map PingPlay E
  /\ timers s'
     = timers s ++ glitchTimers (nextTimer s) (clock s + 200) (length E)
  /\ glitching s' = match E with [] => glitching s | _ => true end.
Proof.
  intros s s' E Hp Hm. unfold s'. cbn [step]. rewrite Hm.
  destruct (quiet_reachable pg0 evs) as (_ & Hc & _). fold s in Hc.
  rewrite (deliver_stable pg s Hp Hc). cbn. fold E.
  repeat split; reflexivity.
Qed.

Lemma stable_snapshot_effects_witness :
  let s := run [Advance 600] (mount (Some readyNow)) in
  let s' := step (Snapshot (Some (atPercent 0))) s in
  phase s = STABLE /\ mounted s = true
  /\ phase s' = STABLE /\ doneCalls s' = doneCalls s.
Proof.
  assert (Hp : phase (run [Advance 600] (mount (Some readyNow))) = STABLE)
    by (vm_compute; reflexivity).
  assert (Hm : mounted (run [Advance 600] (mount (Some readyNow))) = true)
    by (vm_compute; reflexivity).
  destruct (stable_snapshot_effects (Some readyNow) [Advance 600]
              (Some (atPercent 0)) Hp Hm)
    as (H1 & H2 & _).
  cbv zeta. split; [exact Hp|]. split; [exact Hm|]. split; [exact H1|exact H2].
Defined.

(** The claim as stated fails: 600 ms after entering STABLE the glitch flag
    is clear; a snapshot with a newly ready module then plays the ping and
    sets the flag again. *)
Lemma ping_and_glitch_after_stable :
  let s := run [Advance 600] (mount (Some readyNow)) in
  let s' := step (Snapshot (Some (speechReady 1))) s in
  phase s = STABLE /\ glitching s = false
  /\ cues s = [ChimePlay; AmbienceFadeOut 1200; AmbienceStart]
  /\ phase s' = STABLE /\ glitching s' = true
  /\ cues s' = cues s ++ [PingPlay "Speech System"]
  /\ timers s' = [{| tid := 3; due := 800; action := ClearGlitch |}].
Proof. vm_compute. repeat split; reflexivity. Qed.

(** * The MODULES rule and the empty [modules] object *)

Lemma Qgtb_false a b : (a <= b)%Q -> Qgtb a b = false.
Proof.
  intros H. unfold Qgtb. apply Qle_bool_iff in H. rewrite H. reflexivity.
Qed.

(** C5, as the code has it.  A snapshot the phase effect runs on while
    phase <= ACTIVATION takes the phase to MODULES or beyond when its
    [modules] object has at least one key, whatever the value (to MODULES
    itself unless the snapshot also says the system or all modules are
    ready).  A [modules] object without keys does not trigger the rule:
    with percent <= 0.30 and [systemReady] false the phase stays at most
    ACTIVATION. *)
Theorem modules_rule_needs_a_key (s : State) (p : InitProgress)
    (o : ModulesObj) :
  phase_val (phase s) <= phase_val ACTIVATION ->
  phaseDepsChanged (renderedPg s) (Some p) (renderedPhase s) (phase s) = true ->
  modules p = Some o ->
  ((0 < size (entries o))%nat ->
   phase_val INTEGRATION <= phase_val (phase (deliver (Some p) s)))
  /\ ((0 < size (entries o))%nat ->
      systemReady p = false -> allReady (Some p) = false ->
      phase (deliver (Some p) s) = INTEGRATION)
  /\ (size (entries o) = 0%nat ->
      (pctOf (Some p) <= 0.3)%Q -> systemReady p = false ->
      phase_val (phase (deliver (Some p) s)) <= phase_val ACTIVATION).
Proof.
  intros Hph Hdeps Hm. rewrite phase_deliver, Hdeps.
  unfold nextPhase, guardStable, guardModules, guardActivation, anyModuleData.
  cbn [mbind option_bind sysReady]. rewrite Hm.
  apply Z.leb_le in Hph. rewrite Hph. cbn [andb].
  split; [|split].
  - intros Hsz. rewrite (bool_decide_eq_true_2 _ Hsz), orb_true_r.
    match goal with |- context [if ?b then STABLE else _] => destruct b end;
      cbn [phase_val]; lia.
  - intros Hsz Hr Ha. rewrite (bool_decide_eq_true_2 _ Hsz), orb_true_r.
    rewrite Hr, Ha. reflexivity.
  - intros Hsz Hpct Hr.
    assert (He : entries o = ∅) by (apply map_size_empty_inv, Hsz).
    assert (Ha : allReady (Some p) = false).
    { unfold allReady, modulesOrEmpty. cbn [mbind option_bind].
      rewrite Hm, He. reflexivity. }
    rewrite Hr, Ha, (Qgtb_false _ _ Hpct), Hsz.
    rewrite (bool_decide_eq_false_2 (0 < 0)%nat) by lia. cbn [orb andb].
    match goal with
    | |- context [if ?b then ACTIVATION else _] => destruct b
    end; [cbn [phase_val]; lia|apply Z.leb_le, Hph].
Qed.

Lemma modules_rule_needs_a_key_witness :
  phase_val (phase (mount None)) <= phase_val ACTIVATION
  /\ modules oneKey = Some (obj 1 [("Vision System", false)])
  /\ phase (deliver (Some oneKey) (mount None)) = INTEGRATION
  /\ phase_val (phase (deliver (Some emptyModules) (mount None)))
     <= phase_val ACTIVATION.
Proof.
  assert (H1 : phase_val (phase (mount None)) <= phase_val ACTIVATION)
    by (vm_compute; discriminate).
  split; [exact H1|]. split; [reflexivity|]. split.
  - apply (modules_rule_needs_a_key (mount None) oneKey
             (obj 1 [("Vision System", false)]) H1);
      [vm_compute; reflexivity | reflexivity | vm_compute; lia
      | reflexivity | vm_compute; reflexivity].
  - apply (modules_rule_needs_a_key (mount None) emptyModules (obj 1 []) H1);
      [vm_compute; reflexivity | reflexivity | vm_compute; reflexivity
      | vm_compute; discriminate | reflexivity].
Defined.

(** The claim as stated fails: with [modules: {}] and percent 0.1 the
    phase stays AWAKENING. *)
Lemma empty_modules_do_not_advance :
  phase (mount None) = AWAKENING
  /\ (pctOf (Some emptyModules) <= 0.3)%Q
  /\ (modules emptyModules ≫= λ o, Some (size (entries o))) = Some 0%nat
  /\ phase (run [Snapshot (Some emptyModules)] (mount None)) = AWAKENING.
Proof. vm_compute. repeat split; first [reflexivity | discriminate]. Qed.

(** * Percent out of range *)

Lemma clamp_range q : (0 <= clamp q 0 1 <= 1)%Q.
Proof.
  unfold clamp. split; [apply Q.le_max_l|].
  apply Q.max_lub; [lra|apply Q.le_min_l].
Qed.

(** A threshold inside [0, 1) separates a number and its clamped value in
    the same way. *)
Lemma Qgtb_clamp q c :
  (0 <= c)%Q -> (c < 1)%Q -> Qgtb (clamp q 0 1) c = Qgtb q c.
Proof.
  intros H0 H1. unfold Qgtb. f_equal. apply eq_true_iff_eq.
  rewrite !Qle_bool_iff. unfold clamp.
  destruct (Q.max_spec 0 (Qmin 1 q)) as [[Ha ->]|[Ha ->]];
    destruct (Q.min_spec 1 q) as [[Hb Hc]|[Hb Hc]];
    rewrite ?Hc in *; split; intros; lra.
Qed.

Lemma pctOf_clampPercent pg :
  pctOf (clampPercent <$> pg) = match pg ≫= percent with
                                | Some q => clamp q 0 1
                                | None => 0%Q
                                end.
Proof. destruct pg as [[r [q|] m msg]|]; reflexivity. Qed.

Lemma Qgtb_pctOf_clamp pg c :
  (0 <= c)%Q -> (c < 1)%Q ->
  Qgtb (pctOf (clampPercent <$> pg)) c = Qgtb (pctOf pg) c.
Proof.
  intros H0 H1. rewrite pctOf_clampPercent. unfold pctOf.
  destruct (pg ≫= percent) as [q|];
    [apply Qgtb_clamp; assumption|reflexivity].
Qed.

Lemma guards_clampPercent pg ph :
  guardActivation (clampPercent <$> pg) ph = guardActivation pg ph
  /\ guardModules (clampPercent <$> pg) ph = guardModules pg ph
  /\ guardStable (clampPercent <$> pg) ph = guardStable pg ph.
Proof.
  unfold guardActivation, guardModules, guardStable.
  rewrite !Qgtb_pctOf_clamp by lra.
  destruct pg as [[r q m msg]|]; repeat split; reflexivity.
Qed.


(** * Glitch timers *)

Lemma phaseEffect_timers pg s :
  exists new,
    timers (phaseEffect pg s) = timers s ++ new
    /\ map timerSig new = transitionTimers pg s.
Proof.
  unfold phaseEffect, transitionTimers.
  destruct (guardActivation pg (phase s)), (guardModules pg (phase s)),
    (guardStable pg (phase s)); cbn; rewrite <- ?app_assoc;
    first [ eexists; split; reflexivity
          | exists []; split; [symmetry; apply app_nil_r|reflexivity] ].
Qed.

Lemma phaseEffect_glitching pg s :
  glitching (phaseEffect pg s) =
  guardActivation pg (phase s) || guardModules pg (phase s)
  || guardStable pg (phase s) || glitching s.
Proof.
  unfold phaseEffect.
  destruct (guardActivation pg (phase s)), (guardModules pg (phase s)),
    (guardStable pg (phase s)); reflexivity.
Qed.

Lemma fire_clear_glitch tm s :
  action tm = ClearGlitch -> mounted s = true ->
  glitching (fire tm s) = false
  /\ timers (fire tm s) = filter (λ x, tid x ≠ tid tm) (timers s).
Proof.
  intros Ha Hm. unfold fire. rewrite Ha.
  destruct s; cbn in *; subst. split; reflexivity.
Qed.

(** C8, as the code has it.  Each transition of a run of the phase effect
    sets the glitch flag and arms a clear timer of its own, 300 ms for
    ACTIVATION and for MODULES and 500 ms for STABLE, after the timers that
    were already pending, which stay as they are; each module ping of a
    run of the ping effect does the same with 200 ms.  No timer is reset
    or cancelled when transitions overlap, and whichever clear timer fires
    while the component is mounted clears the flag and leaves the other
    timers pending. *)
Theorem glitch_timers_are_independent :
  (forall pg s,
      exists new,
        timers (phaseEffect pg s) = timers s ++ new
        /\ map timerSig new = transitionTimers pg s)
  /\ (forall pg s,
         glitching (phaseEffect pg s) =
         guardActivation pg (phase s) || guardModules pg (phase s)
         || guardStable pg (phase s) || glitching s)
  /\ (forall pg s,
         let E := risingEdges (prevModulesRef s) (modulesOrEmpty pg) in
         exists new,
           timers (pingEffect pg s) = timers s ++ new
           /\ map timerSig new
              = replicate (length E) (clock s + 200, ClearGlitch)
           /\ glitching (pingEffect pg s)
              = match E with [] => glitching s | _ => true end)
  /\ (forall tm s,
         action tm = ClearGlitch -> mounted s = true ->
         glitching (fire tm s) = false
         /\ timers (fire tm s) = filter (λ x, tid x ≠ tid tm) (timers s)).
Proof.
  split; [apply phaseEffect_timers|].
  split; [apply phaseEffect_glitching|].
  split; [|apply fire_clear_glitch].
  intros pg s E. rewrite pingEffect_eq. cbn [timers glitching].
  eexists. split; [reflexivity|]. split; [apply glitchTimers_sig|reflexivity].
Qed.

Lemma glitch_timers_are_independent_witness :
  let s := run [Advance 250; Snapshot (Some (atPercent 0.35))]
               (mount (Some (atPercent 0.2))) in
  let tm := {| tid := 1; due := 300; action := ClearGlitch |} in
  action tm = ClearGlitch /\ mounted s = true
  /\ glitching (fire tm s) = false
  /\ timers (fire tm s) = filter (λ x, tid x ≠ tid tm) (timers s).
Proof.
  cbv zeta. split; [reflexivity|]. split; [vm_compute; reflexivity|].
  apply (proj2 (proj2 (proj2 glitch_timers_are_independent)));
    [reflexivity | vm_compute; reflexivity].
Defined.

(** The claim as stated fails: ACTIVATION at 0 ms arms a 300 ms timer,
    MODULES at 250 ms arms another; at 300 ms the first one clears the
    flag although the second transition is only 50 ms old and its own
    timer, due at 550 ms, is still pending. *)
Lemma early_timer_clears_later_glitch :
  let s0 := run [Advance 250; Snapshot (Some (atPercent 0.35))]
                (mount (Some (atPercent 0.2))) in
  let s := run [Advance 50] s0 in
  phase s0 = INTEGRATION /\ clock s0 = 250 /\ glitching s0 = true
  /\ clock s = 300 /\ glitching s = false
  /\ {| tid := 2; due := 550; action := ClearGlitch |} ∈ timers s.
Proof.
  vm_compute. repeat split; try reflexivity.
  apply list_elem_of_further, list_elem_of_here.
Qed.

(** * Unmount *)

(** C6.  The code does not do what the claim says.  Mounted with percent
    0.2 the component enters ACTIVATION and arms a 300 ms glitch-clear
    timer; unmounted at 100 ms, the ambience timer is cleared but the
    glitch-clear timer is still pending, and it fires at 300 ms, after
    teardown. *)
Theorem glitch_timer_outlives_unmount :
  let s := run [Advance 100; Unmount] (mount (Some (atPercent 0.2))) in
  mounted s = false
  /\ clock s = 100
  /\ timers s = [{| tid := 1; due := 300; action := ClearGlitch |}]
  /\ lateCallbacks s = 0%nat
  /\ lateCallbacks (run [Advance 200] s) = 1%nat.
Proof. vm_compute. repeat split; reflexivity. Qed.

(** * The simulator *)

Module Sim.

Lemma modules_eq pct :
  simModules pct =
  <["Vision System" := Qle_bool 0.85 pct]>
    (<["Knowledge Core" := Qle_bool 0.65 pct]>
       (<["Voice Engine" := Qle_bool 0.4 pct]>
          (<["Speech System" := Qle_bool 0.2 pct]> ∅))).
Proof. reflexivity. Qed.

Lemma readyCount_four (b1 b2 b3 b4 : bool) :
  (readyCount (<["Vision System" := b4]>
     (<["Knowledge Core" := b3]>
        (<["Voice Engine" := b2]>
           (<["Speech System" := b1]> ∅)))) =? length MODULES)%nat
  = b1 && b2 && b3 && b4.
Proof. destruct b1, b2, b3, b4; vm_compute; reflexivity. Qed.

Lemma Qle_bool_mono a b x :
  (a <= b)%Q -> Qle_bool b x = true -> Qle_bool a x = true.
Proof.
  intros Hab H. apply Qle_bool_iff in H. apply Qle_bool_iff. lra.
Qed.

(** The checkpoints are passed in order. *)
Lemma thresholds pct :
  Qle_bool 0.85 pct = true ->
  Qle_bool 0.2 pct = true /\ Qle_bool 0.4 pct = true
  /\ Qle_bool 0.65 pct = true.
Proof.
  intros H. repeat split; (eapply Qle_bool_mono; [|exact H]); lra.
Qed.

Lemma systemReady_eq o t :
  systemReady (simSnapshot o t) = Qle_bool 0.95 (simPct t).
Proof.
  unfold simSnapshot. cbn [systemReady].
  rewrite modules_eq, readyCount_four.
  destruct (Qle_bool 0.95 (simPct t)) eqn:H; [|reflexivity].
  assert (H85 : Qle_bool 0.85 (simPct t) = true)
    by (eapply Qle_bool_mono; [|exact H]; lra).
  destruct (thresholds _ H85) as (-> & -> & ->). rewrite H85. reflexivity.
Qed.

Lemma allReady_eq o t :
  allReady (Some (simSnapshot o t)) = Qle_bool 0.85 (simPct t).
Proof.
  unfold allReady, modulesOrEmpty, simSnapshot.
  cbn [mbind option_bind modules entries].
  rewrite modules_eq. unfold MODULES, truthy. cbn [forallb].
  rewrite lookup_insert_ne, lookup_insert_ne, lookup_insert_ne,
    lookup_insert_eq by done.
  rewrite lookup_insert_ne, lookup_insert_ne, lookup_insert_eq by done.
  rewrite lookup_insert_ne, lookup_insert_eq by done.
  rewrite lookup_insert_eq.
  destruct (Qle_bool 0.85 (simPct t)) eqn:H.
  - destruct (thresholds _ H) as (-> & -> & ->). reflexivity.
  - rewrite !andb_false_r. reflexivity.
Qed.

Lemma entries_eq o t c m :
  (c, m) ∈ stages ->
  (modules (simSnapshot o t) ≫= λ ob, entries ob !! m)
  = Some (Qle_bool c (simPct t)).
Proof.
  intros H. cbn [simSnapshot modules mbind option_bind entries].
  rewrite modules_eq. unfold stages in H.
  repeat (apply elem_of_cons in H as [H|H];
          [injection H as -> ->; by simplify_map_eq|]).
  inversion H.
Qed.

Lemma anyModuleData_true o t : anyModuleData (Some (simSnapshot o t)) = true.
Proof.
  unfold anyModuleData. cbn [simSnapshot modules mbind option_bind entries].
  rewrite modules_eq.
  destruct (Qle_bool 0.2 (simPct t)), (Qle_bool 0.4 (simPct t)),
    (Qle_bool 0.65 (simPct t)), (Qle_bool 0.85 (simPct t));
    vm_compute; reflexivity.
Qed.

Lemma pct_late t : (0.95 * ms <= t)%Q -> (0.95 <= simPct t)%Q.
Proof.
  intros H. unfold simPct. apply Q.min_glb; [lra|].
  unfold ms, Qdiv in *. change (/ 12000)%Q with (1 # 12000)%Q. lra.
Qed.

Lemma run_stops o frames l1 p l2 q :
  simRun o frames = l1 ++ p :: l2 ->
  percent p = Some q -> (1 <= q)%Q -> l2 = [].
Proof.
  revert o l1. induction frames as [|t rest IH]; intros o l1 H Hp Hq.
  - destruct l1; discriminate.
  - cbn [simRun] in H. destruct l1 as [|x l1].
    + cbn in H. injection H as <- H. cbn in Hp. injection Hp as <-.
      apply Qle_bool_iff in Hq. rewrite Hq in H. symmetry. exact H.
    + cbn in H. injection H as _ H.
      destruct (Qle_bool 1 (simPct t)); [destruct l1; discriminate|].
      eapply IH; eassumption.
Qed.

Lemma run_frames o frames p :
  p ∈ simRun o frames -> exists k t, t ∈ frames /\ p = simSnapshot k t.
Proof.
  revert o. induction frames as [|t rest IH]; intros o H; [inversion H|].
  cbn [simRun] in H. apply elem_of_cons in H as [->|H].
  - exists o, t. split; [apply list_elem_of_here|reflexivity].
  - destruct (Qle_bool 1 (simPct t)); [inversion H|].
    destruct (IH _ H) as (k & u & Hu & ->).
    exists k, u. split; [apply list_elem_of_further, Hu|reflexivity].
Qed.

(** The first simulated snapshot takes a fresh component past
    ACTIVATION. *)
Lemma nextPhase_first o t :
  nextPhase (Some (simSnapshot o t)) AWAKENING =
  if Qle_bool 0.85 (simPct t) then STABLE else INTEGRATION.
Proof.
  unfold nextPhase, guardStable, guardModules.
  rewrite anyModuleData_true, allReady_eq. cbn [sysReady].
  rewrite systemReady_eq, orb_true_r. cbn.
  destruct (Qle_bool 0.85 (simPct t)) eqn:H; [rewrite orb_true_r|]; cbn.
  - reflexivity.
  - destruct (Qle_bool 0.95 (simPct t)) eqn:H95; [|reflexivity].
    assert (Qle_bool 0.85 (simPct t) = true)
      by (eapply Qle_bool_mono; [|exact H95]; lra).
    congruence.
Qed.

End Sim.

(** The component mounted without progress, before the first frame. *)
Lemma mount_None_eq :
  mount None =
  mkState AWAKENING false false ∅ None AWAKENING None (Some 0%nat)
    [{| tid := 0; due := 400; action := AmbiencePlay |}] 1 0 [] 0 true 0.
Proof. vm_compute. reflexivity. Qed.

(** C7.  The stages of the simulator are the modules in MODULES order;
    in the snapshot for elapsed time [t] each module is present and is
    ready exactly when the elapsed fraction [min(1, t / 12000)] has reached
    its checkpoint (0.20, 0.40, 0.65, 0.85); [systemReady] is true exactly
    when the fraction is at least 0.95 and all four modules are ready,
    which is the case from 0.95 * 12000 elapsed on, before the 12000 of the
    total duration; every snapshot emitted over a sequence of animation
    frames is the snapshot of one of the frames, and a snapshot whose
    fraction has reached 1 is the last one emitted. *)
Theorem simulator_contract :
  stages.*2 = MODULES
  /\ (forall o t c m,
         (c, m) ∈ stages ->
         (modules (simSnapshot o t) ≫= λ ob, entries ob !! m)
         = Some (Qle_bool c (simPct t)))
  /\ (forall o t,
         systemReady (simSnapshot o t)
         = Qle_bool 0.95 (simPct t) && allReady (Some (simSnapshot o t)))
  /\ (forall o t,
         (0.95 * ms <= t)%Q -> systemReady (simSnapshot o t) = true)
  /\ (0.95 * ms < ms)%Q
  /\ (forall o frames p,
         p ∈ simRun o frames ->
         exists k t, t ∈ frames /\ p = simSnapshot k t)
  /\ (forall o frames l1 p l2 q,
         simRun o frames = l1 ++ p :: l2 ->
         percent p = Some q -> (1 <= q)%Q -> l2 = []).
Proof.
  split; [reflexivity|].
  split; [apply Sim.entries_eq|].
  split.
  { intros o t. rewrite Sim.systemReady_eq, Sim.allReady_eq.
    destruct (Qle_bool 0.95 (simPct t)) eqn:H; [|reflexivity].
    symmetry. eapply Sim.Qle_bool_mono; [|exact H]. lra. }
  split.
  { intros o t H. rewrite Sim.systemReady_eq.
    apply Qle_bool_iff, Sim.pct_late, H. }
  split; [unfold ms; lra|].
  split; [apply Sim.run_frames|apply Sim.run_stops].
Qed.

Lemma simulator_contract_witness :
  (0.2%Q, "Speech System") ∈ stages
  /\ (modules (simSnapshot 0 2400) ≫= λ ob, entries ob !! "Speech System")
     = Some (Qle_bool 0.2 (simPct 2400))
  /\ (0.95 * ms <= 11400)%Q
  /\ systemReady (simSnapshot 0 11400) = true
  /\ simRun 0 [6000; 12000; 12016]%Q
     = [simSnapshot 0 6000] ++ simSnapshot 1 12000 :: [].
Proof.
  destruct simulator_contract as (_ & H2 & _ & H4 & _ & _ & H7).
  assert (Hs : (0.2%Q, "Speech System") ∈ stages) by apply list_elem_of_here.
  assert (Ht : (0.95 * ms <= 11400)%Q) by (vm_compute; discriminate).
  split; [exact Hs|]. split; [apply H2, Hs|]. split; [exact Ht|].
  split; [apply H4, Ht|].
  assert (Hr : exists l2, simRun 0 [6000; 12000; 12016]%Q
                          = [simSnapshot 0 6000] ++ simSnapshot 1 12000 :: l2)
    by (eexists; vm_compute; reflexivity).
  destruct Hr as [l2 Hr]. rewrite Hr. f_equal. f_equal.
  apply (H7 0%nat [6000; 12000; 12016]%Q [simSnapshot 0 6000]
            (simSnapshot 1 12000) l2 (simPct 12000) Hr);
    [reflexivity | vm_compute; discriminate].
Defined.

(** C10, as the code has it.  Every simulated snapshot has all four
    modules as keys of [modules], false until its checkpoint, so the
    module-data test holds and the MODULES guard holds at every phase up to
    ACTIVATION whatever the percent.  Delivered to a freshly mounted
    component without progress, the first simulated snapshot takes the
    phase from AWAKENING past ACTIVATION: to MODULES when its fraction is
    below 0.85, and straight to STABLE when the first frame comes so late
    that all four modules are already ready; afterwards the phase is never
    below MODULES. *)
Theorem simulated_first_update (o : nat) (t : Q) :
  let p := simSnapshot o t in
  (forall c m, (c, m) ∈ stages ->
     (modules p ≫= λ ob, entries ob !! m) = Some (Qle_bool c (simPct t)))
  /\ stages.*2 = MODULES
  /\ anyModuleData (Some p) = true
  /\ (forall ph, phase_val ph <= phase_val ACTIVATION ->
        guardModules (Some p) ph = true)
  /\ phase (mount None) = AWAKENING
  /\ phase (run [Snapshot (Some p)] (mount None))
     = (if Qle_bool 0.85 (simPct t) then STABLE else INTEGRATION)
  /\ (forall evs,
        phase_val INTEGRATION
        <= phase_val (phase (run (Snapshot (Some p) :: evs) (mount None)))).
Proof.
  intros p.
  assert (Hfirst : phase (run [Snapshot (Some p)] (mount None))
                   = if Qle_bool 0.85 (simPct t) then STABLE else INTEGRATION).
  { cbn [run foldl step]. rewrite mount_None_eq. cbn [mounted].
    rewrite phase_deliver. cbn [phase renderedPg renderedPhase].
    unfold phaseDepsChanged, p. cbn [simSnapshot percent mbind option_bind].
    cbn [sameNumber andb negb]. apply Sim.nextPhase_first. }
  split; [intros c m; apply Sim.entries_eq|].
  split; [reflexivity|]. split; [apply Sim.anyModuleData_true|].
  split.
  { intros ph Hph. unfold guardModules. apply Z.leb_le in Hph.
    rewrite Hph. unfold p. rewrite Sim.anyModuleData_true, orb_true_r.
    reflexivity. }
  split; [rewrite mount_None_eq; reflexivity|]. split; [exact Hfirst|].
  intros evs. change (Snapshot (Some p) :: evs) with ([Snapshot (Some p)] ++ evs).
  rewrite run_app.
  etransitivity; [|apply run_ge]. rewrite Hfirst.
  destruct (Qle_bool 0.85 (simPct t)); cbn; lia.
Qed.

Lemma simulated_first_update_witness :
  (0.85%Q, "Vision System") ∈ stages
  /\ (modules (simSnapshot 0 16) ≫= λ ob, entries ob !! "Vision System")
     = Some (Qle_bool 0.85 (simPct 16))
  /\ phase_val AWAKENING <= phase_val ACTIVATION
  /\ guardModules (Some (simSnapshot 0 16)) AWAKENING = true.
Proof.
  destruct (simulated_first_update 0 16) as (H1 & _ & _ & H4 & _).
  assert (Hs : (0.85%Q, "Vision System") ∈ stages)
    by (do 3 apply list_elem_of_further; apply list_elem_of_here).
  assert (Hp : phase_val AWAKENING <= phase_val ACTIVATION)
    by (vm_compute; discriminate).
  split; [exact Hs|]. split; [apply H1, Hs|]. split; [exact Hp|].
  apply H4, Hp.
Defined.

(** The claim as stated fails: when the first animation frame comes
    10200 ms after mount, all four modules are ready in the first snapshot
    and the phase goes from AWAKENING to STABLE, not to MODULES. *)
Lemma late_first_frame_skips_modules :
  phase (mount None) = AWAKENING
  /\ allReady (Some (simSnapshot 1 10200)) = true
  /\ phase (run [Snapshot (Some (simSnapshot 1 10200))] (mount None)) = STABLE.
Proof. vm_compute. repeat split; reflexivity. Qed.

(** * The audio handle *)

Lemma fade_k_range start ms t :
  (0 < ms)%Q -> (start <= t)%Q ->
  (0 <= Qmin 1 ((t - start) / ms) <= 1)%Q.
Proof.
  intros Hms Ht. split; [|apply Q.le_min_l].
  apply Q.min_glb; [lra|]. apply Qle_shift_div_l; [exact Hms|lra].
Qed.

Lemma fade_volume_range sv k :
  (0 <= sv)%Q -> (0 <= k <= 1)%Q -> (0 <= sv * (1 - k) <= sv)%Q.
Proof. intros Hsv [Hk0 Hk1]. split; nra. Qed.

Lemma fadeTick_volume start ms sv t a :
  (0 < ms)%Q -> (start <= t)%Q -> (0 <= sv)%Q ->
  (0 <= volume (fadeTick start ms sv t a).1 <= sv)%Q.
Proof.
  intros Hms Ht Hsv. unfold fadeTick.
  pose proof (fade_volume_range sv _ Hsv (fade_k_range start ms t Hms Ht)).
  destruct (negb _); cbn; assumption.
Qed.

Lemma fadeTick_last start ms sv t a :
  (0 < ms)%Q -> (start + ms <= t)%Q ->
  (fadeTick start ms sv t a).2 = false
  /\ (volume (fadeTick start ms sv t a).1 == 0)%Q
  /\ paused (fadeTick start ms sv t a).1 = true.
Proof.
  intros Hms Ht. unfold fadeTick.
  assert (Hk : (Qmin 1 ((t - start) / ms) == 1)%Q).
  { apply Q.min_l. apply Qle_shift_div_l; [exact Hms|lra]. }
  assert (Hb : Qle_bool 1 (Qmin 1 ((t - start) / ms)) = true)
    by (apply Qle_bool_iff; rewrite Hk; lra).
  rewrite Hb. cbn. repeat split; [rewrite Hk; ring].
Qed.

Lemma fadeTick_stopped start ms sv t a :
  (fadeTick start ms sv t a).2 = false ->
  paused (fadeTick start ms sv t a).1 = true.
Proof. unfold fadeTick. destruct (negb _); cbn; [discriminate|reflexivity]. Qed.

Lemma fadeFrames_range start ms sv frames a :
  (0 < ms)%Q -> (0 <= sv)%Q -> (0 <= volume a <= sv)%Q ->
  Forall (λ t, (start <= t)%Q) frames ->
  (0 <= volume (fadeFrames start ms sv frames a) <= sv)%Q.
Proof.
  intros Hms Hsv. revert a.
  induction frames as [|t rest IH]; intros a Ha Hf; [exact Ha|].
  apply Forall_cons in Hf as [Ht Hf]. cbn [fadeFrames].
  pose proof (fadeTick_volume start ms sv t a Hms Ht Hsv) as Hv.
  destruct (fadeTick start ms sv t a) as [a' again]. cbn in Hv.
  destruct again; [apply IH; assumption|exact Hv].
Qed.

Lemma fadeFrames_done start ms sv frames a t :
  (0 < ms)%Q -> t ∈ frames -> (start + ms <= t)%Q ->
  (volume (fadeFrames start ms sv frames a) == 0)%Q
  /\ paused (fadeFrames start ms sv frames a) = true.
Proof.
  intros Hms. revert a.
  induction frames as [|u rest IH]; intros a Hin Ht; [inversion Hin|].
  cbn [fadeFrames].
  destruct (fadeTick start ms sv u a) as [a' again] eqn:Hu.
  destruct again.
  - apply elem_of_cons in Hin as [->|Hin]; [|apply IH; assumption].
    pose proof (fadeTick_last start ms sv u a Hms Ht) as (Hc & _).
    rewrite Hu in Hc. discriminate.
  - destruct (Qlt_le_dec u (start + ms)) as [Hlt|Hge].
    + assert (Hk : (Qmin 1 ((u - start) / ms) < 1)%Q).
      { apply Q.min_lt_iff. right. apply Qlt_shift_div_r; [exact Hms|lra]. }
      unfold fadeTick in Hu.
      assert (Hb : Qle_bool 1 (Qmin 1 ((u - start) / ms)) = false).
      { apply not_true_is_false. intros Hb. apply Qle_bool_iff in Hb. lra. }
      rewrite Hb in Hu. cbn in Hu. injection Hu as _ Hu. discriminate.
    + pose proof (fadeTick_last start ms sv u a Hms Hge) as (_ & Hv & Hp).
      rewrite Hu in Hv, Hp. split; assumption.
Qed.



(** * Random characters *)

(** X2.  For a value of [Math.random()], at least 0 and below 1, and a
    non-empty [chars], the index [Math.floor(r * chars.length)] is a
    position of [chars]: the lookup never yields [undefined]. *)
Theorem randomChar_defined {A} (chars : list A) (r : Q) :
  (0 <= r)%Q -> (r < 1)%Q -> chars <> [] ->
  0 <= randomIndex r (length chars) < Z.of_nat (length chars)
  /\ is_Some (randomChar chars r).
Proof.
  intros H0 H1 Hne. unfold randomChar, randomIndex.
  set (n := Z.of_nat (length chars)).
  assert (Hn : 0 < n) by (destruct chars; [contradiction|cbn in *; lia]).
  assert (HnQ : (0 < inject_Z n)%Q)
    by (change 0%Q with (inject_Z 0); rewrite <- Zlt_Qlt; exact Hn).
  assert (Hlo : 0 <= Qfloor (r * inject_Z n)).
  { apply (Qfloor_resp_le 0). nra. }
  assert (Hhi : Qfloor (r * inject_Z n) < n).
  { rewrite Zlt_Qlt. eapply Qle_lt_trans; [apply Qfloor_le|]. nra. }
  split; [lia|].
  destruct (Z.ltb_spec (Qfloor (r * inject_Z n)) 0); [exfalso; lia|].
  apply lookup_lt_is_Some. fold n. unfold n in Hhi, Hlo |- * . lia.
Qed.

Lemma randomChar_defined_witness :
  (0 <= 0.999)%Q /\ (0.999 < 1)%Q /\ ["a"; "b"; "c"] <> []
  /\ is_Some (randomChar ["a"; "b"; "c"] 0.999).
Proof.
  assert (H0 : (0 <= 0.999)%Q) by (vm_compute; discriminate).
  assert (H1 : (0.999 < 1)%Q) by reflexivity.
  assert (H2 : ["a"; "b"; "c"] <> []) by discriminate.
  split; [exact H0|]. split; [exact H1|]. split; [exact H2|].
  apply (randomChar_defined ["a"; "b"; "c"] 0.999 H0 H1 H2).
Defined.

(** * Matrix rain *)

Lemma dropStep_cases h r d :
  dropStep h r d = d + 1 \/ (h < d * fontSize /\ dropStep h r d = 1).
Proof.
  unfold dropStep. destruct (Z.ltb_spec h (d * fontSize)); cbn [andb];
    [|left; reflexivity].
  destruct (Qgtb r 0.975); [right; split; [assumption|reflexivity]
                           |left; reflexivity].
Qed.

Lemma dropStep_positive h r d : 0 <= d -> 1 <= dropStep h r d.
Proof. intros Hd. destruct (dropStep_cases h r d) as [->|[_ ->]]; lia. Qed.

Lemma drawDrops_positive h rs drops :
  Forall (λ d, 1 <= d) drops -> Forall (λ d, 1 <= d) (drawDrops h rs drops).
Proof.
  unfold drawDrops. revert rs.
  induction drops as [|d drops IH]; intros rs Hf; [constructor|].
  apply Forall_cons in Hf as [Hd Hf]. cbn [imap]. constructor.
  - apply dropStep_positive. lia.
  - apply (IH (rs ∘ S)), Hf.
Qed.

Lemma drawMany_spec k heights rs drops :
  Forall (λ d, 1 <= d) drops ->
  length (drawMany k heights rs drops) = length drops
  /\ Forall (λ d, 1 <= d) (drawMany k heights rs drops).
Proof.
  revert k drops. induction heights as [|h rest IH]; intros k drops Hf;
    cbn [drawMany]; [split; [reflexivity|exact Hf]|].
  destruct (IH (S k) (drawDrops h (rs k) drops)
              (drawDrops_positive h (rs k) drops Hf)) as [Hl Hp].
  split; [|exact Hp]. rewrite Hl. unfold drawDrops. apply length_imap.
Qed.

(** X3.  On a canvas of width at least 0 there is one drop per whole
    14-pixel column, each column lying inside the canvas; however many
    passes are drawn, at whatever canvas heights and with whatever random
    values, the number of drops stays the same and every drop stays at 1
    or above.  In one pass a drop goes down by one row, unless it is below
    the canvas, where it may restart at row 1. *)
Theorem rain_drops_stay_in_range (width : Z) (k : nat) (heights : list Z)
    (rs : nat -> nat -> Q) :
  0 <= width ->
  let drops := drawMany k heights rs (initDrops width) in
  Z.of_nat (length drops) = columnsOf width
  /\ Forall (λ d, 1 <= d) drops
  /\ (forall i, (i < length drops)%nat ->
        Z.of_nat i * fontSize + fontSize <= width)
  /\ (forall h r d,
        dropStep h r d = d + 1 \/ (h < d * fontSize /\ dropStep h r d = 1)).
Proof.
  intros Hw drops.
  assert (Hinit : Forall (λ d, 1 <= d) (initDrops width))
    by (apply Forall_replicate; lia).
  destruct (drawMany_spec k heights rs (initDrops width) Hinit) as [Hl Hp].
  fold drops in Hl, Hp.
  assert (Hc : 0 <= columnsOf width)
    by (unfold columnsOf, fontSize; apply Z.div_pos; lia).
  assert (Hlen : Z.of_nat (length drops) = columnsOf width).
  { rewrite Hl. unfold initDrops. rewrite length_replicate. lia. }
  split; [exact Hlen|]. split; [exact Hp|]. split; [|apply dropStep_cases].
  intros i Hi.
  assert (Hi' : Z.of_nat i + 1 <= columnsOf width) by lia.
  unfold columnsOf, fontSize in *.
  pose proof (Z.mul_div_le width 14 ltac:(lia)). nia.
Qed.

Lemma rain_drops_stay_in_range_witness :
  0 <= 100
  /\ drawMany 0 [50; 50; 50; 50; 50] (λ _ _, 0.99%Q) (initDrops 100)
     = [2; 2; 2; 2; 2; 2; 2]
  /\ Forall (λ d, 1 <= d)
       (drawMany 0 [50; 50; 50; 50; 50] (λ _ _, 0.99%Q) (initDrops 100)).
Proof.
  assert (H : 0 <= 100) by lia.
  split; [exact H|]. split; [vm_compute; reflexivity|].
  apply (rain_drops_stay_in_range 100 0 [50; 50; 50; 50; 50]
           (λ _ _, 0.99%Q) H).
Defined.

(** * Encrypted text *)

Section Scramble.

Context {A : Type}.
Variable text : list A.

Lemma scramble_length f (rnd : nat -> A) :
  length (scramble f rnd text) = length text.
Proof. unfold scramble. apply length_imap. Qed.

Lemma scramble_lookup_revealed f (rnd : nat -> A) i :
  (i < f)%nat -> scramble f rnd text !! i = text !! i.
Proof.
  intros Hi. unfold scramble. rewrite list_lookup_imap.
  destruct (Nat.ltb_spec i f); [|lia].
  destruct (text !! i) as [c|]; reflexivity.
Qed.

Lemma scramble_take f g (rnd : nat -> A) :
  (g <= f)%nat -> take g (scramble f rnd text) = take g text.
Proof.
  intros Hg. apply list_eq. intros i.
  destruct (Nat.lt_ge_cases i g) as [Hi|Hi].
  - rewrite !lookup_take_lt by exact Hi.
    apply scramble_lookup_revealed. lia.
  - rewrite !lookup_take_ge by exact Hi. reflexivity.
Qed.

Lemma scramble_all f (rnd : nat -> A) :
  (length text <= f)%nat -> scramble f rnd text = text.
Proof.
  intros Hf. apply list_eq. intros i.
  destruct (Nat.lt_ge_cases i f) as [Hi|Hi].
  - apply scramble_lookup_revealed, Hi.
  - rewrite !lookup_ge_None_2; [reflexivity|lia|rewrite scramble_length; lia].
Qed.

Variable eager : nat -> bool.
Variable rnd : nat -> nat -> A.

Lemma revealTicks_running n :
  (n <= S (length text))%nat ->
  frameNo (revealTicks text eager rnd n) = n
  /\ ticking (revealTicks text eager rnd n) = (n <=? length text)%nat.
Proof.
  induction n as [|n IH]; intros Hn.
  - split; reflexivity.
  - destruct IH as [Hf Ht]; [lia|]. cbn [revealTicks]. unfold revealTick.
    rewrite Ht, Hf.
    destruct (Nat.leb_spec n (length text)); [|lia].
    cbn [frameNo ticking]. split; [reflexivity|].
    destruct (Nat.ltb_spec (length text) (S n)),
      (Nat.leb_spec (S n) (length text)); cbn [negb];
      first [reflexivity|exfalso; lia].
Qed.

Lemma revealTicks_shown n :
  (n <= length text)%nat ->
  exists f, (n <= f)%nat
    /\ displayText (revealTicks text eager rnd (S n))
       = scramble f (rnd n) text.
Proof.
  intros Hn. destruct (revealTicks_running n) as [Hf Ht]; [lia|].
  cbn [revealTicks]. unfold revealTick. rewrite Ht, Hf.
  destruct (Nat.leb_spec n (length text)); [|lia]. cbn [displayText].
  destruct (eager n); eexists; (split; [|reflexivity]); lia.
Qed.

Lemma revealTicks_finished n :
  (length text < n)%nat ->
  revealTicks text eager rnd n
  = mkReveal text (S (length text)) false.
Proof.
  induction n as [|n IH]; intros Hn; [lia|].
  destruct (Nat.eq_dec n (length text)) as [->|Hne].
  - destruct (revealTicks_running (length text)) as [Hf Ht]; [lia|].
    cbn [revealTicks]. unfold revealTick. rewrite Ht, Hf, Nat.leb_refl.
    rewrite scramble_all by (destruct (eager _); lia).
    f_equal. destruct (Nat.ltb_spec (length text) (S (length text)));
      [reflexivity|lia].
  - cbn [revealTicks]. rewrite IH by lia. reflexivity.
Qed.

End Scramble.



(** * Cursor trail *)

Lemma trailsAfter_snoc moves x y :
  trailsAfter (moves ++ [(x, y)]) = onMove x y (trailsAfter moves).
Proof. unfold trailsAfter. rewrite foldl_app. reflexivity. Qed.

Lemma sliceLast_ids n (l : list Trail) a :
  trailId <$> l = seq a (length l) ->
  trailId <$> sliceLast n l
  = seq (a + (length l - n)) (length l - (length l - n)).
Proof.
  intros H. unfold sliceLast. rewrite fmap_drop, H. apply drop_seq.
Qed.

Lemma trailsAfter_spec moves :
  let n := length moves in
  let st := trailsAfter moves in
  st.1 = n
  /\ length st.2 = Nat.min n 21
  /\ trailId <$> st.2 = seq (n - Nat.min n 21) (Nat.min n 21).
Proof.
  induction moves as [|[x y] moves IH] using rev_ind.
  - repeat split.
  - cbv zeta in *. destruct IH as (H1 & H2 & H3).
    rewrite trailsAfter_snoc, length_app. cbn [length].
    unfold onMove. cbn [fst snd].
    assert (Hs : length (sliceLast 20 (trailsAfter moves).2)
                 = Nat.min (length moves) 20).
    { unfold sliceLast. rewrite length_drop, H2. lia. }
    split; [rewrite H1; lia|]. split.
    + rewrite length_app, Hs. cbn [length]. lia.
    + rewrite fmap_app. cbn [fmap list_fmap trailId].
      rewrite (sliceLast_ids 20 _ (length moves - Nat.min (length moves) 21))
        by (rewrite H2; exact H3).
      rewrite H1, H2.
      replace (Nat.min (length moves + 1) 21)
        with (S (Nat.min (length moves) 20)) by lia.
      rewrite seq_S. f_equal; [f_equal; lia|f_equal; lia].
Qed.

(** X5.  After any number n of mouse moves the trail holds the last
    min(n, 21) positions, never more than 21; their ids are the consecutive
    numbers ending at n - 1, so no two trails share a key; and the newest
    trail is the position of the last move. *)
Theorem cursor_trail_is_bounded (moves : list (Q * Q)) :
  let n := length moves in
  let st := trailsAfter moves in
  st.1 = n
  /\ (length st.2 <= 21)%nat
  /\ length st.2 = Nat.min n 21
  /\ trailId <$> st.2 = seq (n - Nat.min n 21) (Nat.min n 21)
  /\ NoDup (trailId <$> st.2)
  /\ (forall x y rest, moves = rest ++ [(x, y)] ->
        last st.2 = Some {| trailX := x; trailY := y;
                            trailId := length rest |}).
Proof.
  cbv zeta. destruct (trailsAfter_spec moves) as (H1 & H2 & H3).
  split; [exact H1|]. split; [rewrite H2; lia|]. split; [exact H2|].
  split; [exact H3|]. split; [rewrite H3; apply NoDup_seq|].
  intros x y rest ->. rewrite trailsAfter_snoc. unfold onMove. cbn [snd fst].
  rewrite last_snoc. destruct (trailsAfter_spec rest) as (-> & _).
  reflexivity.
Qed.

Lemma cursor_trail_is_bounded_witness :
  [(1, 2); (3, 4)]%Q = [(1, 2)]%Q ++ [(3, 4)]%Q
  /\ last (trailsAfter [(1, 2); (3, 4)]%Q).2
     = Some {| trailX := 3; trailY := 4; trailId := 1 |}.
Proof.
  assert (H : [(1, 2); (3, 4)]%Q = [(1, 2)]%Q ++ [(3, 4)]%Q) by reflexivity.
  split; [exact H|].
  destruct (cursor_trail_is_bounded [(1, 2); (3, 4)]%Q)
    as (_ & _ & _ & _ & _ & Hl).
  apply (Hl 3%Q 4%Q [(1, 2)]%Q H).
Defined.

(** * Circular visualizer and orb *)

Lemma byte_range (b : Byte.byte) : 0 <= Z.of_N (Byte.to_N b) <= 255.
Proof. pose proof (Byte.to_N_bounded b). lia. Qed.

Lemma barValue_range data i : 0 <= barValue data i <= 255.
Proof.
  unfold barValue. destruct (data !! _); [apply byte_range|lia].
Qed.

Lemma barIndex_in_range data i :
  data <> [] -> (i < barCount)%nat ->
  (i * barSlice data < length data)%nat.
Proof.
  intros Hne Hi. unfold barSlice, barCount in *.
  assert (Hl : (0 < length data)%nat)
    by (destruct data; [contradiction|cbn; lia]).
  pose proof (Nat.Div0.mul_div_le (length data) 128) as Hm.
  destruct (Nat.eq_dec (length data / 128)%nat 0%nat) as [Hz|Hz];
    [rewrite Hz; lia|]. nia.
Qed.

Lemma barPercent_range data i : (0 <= barPercent data i <= 1)%Q.
Proof.
  unfold barPercent. destruct (barValue_range data i) as [H0 H1].
  rewrite Zle_Qle in H0, H1. change (inject_Z 0) with 0%Q in H0.
  change (inject_Z 255) with 255%Q in H1. split.
  - apply Qle_shift_div_l; lra.
  - apply Qle_shift_div_r; lra.
Qed.

(** X6.  For a non-empty frequency buffer every one of the 128 bars reads
    a position inside the buffer, so the [|| 0] fallback is never needed;
    and for any buffer each bar's height is between 0 and 80 and its
    stroke alpha between 0.6 and 1. *)
Theorem visualizer_bars_in_range (data : list Byte.byte) (i : nat) :
  (data <> [] -> (i < barCount)%nat ->
   is_Some (data !! (i * barSlice data)%nat))
  /\ (0 <= barHeight data i <= 80)%Q
  /\ (0.6 <= barAlpha data i <= 1)%Q.
Proof.
  pose proof (barPercent_range data i) as [H0 H1].
  split; [|unfold barHeight, barAlpha; split; split; lra].
  intros Hne Hi. apply lookup_lt_is_Some, barIndex_in_range; assumption.
Qed.

Lemma visualizer_bars_in_range_witness :
  let data := replicate 200 Byte.xff in
  data <> [] /\ (127 < barCount)%nat
  /\ is_Some (data !! (127 * barSlice data)%nat).
Proof.
  cbv zeta.
  assert (H1 : replicate 200 Byte.xff <> []) by discriminate.
  assert (H2 : (127 < barCount)%nat) by (unfold barCount; lia).
  split; [exact H1|]. split; [exact H2|].
  apply (proj1 (visualizer_bars_in_range (replicate 200 Byte.xff) 127) H1 H2).
Defined.

Lemma byteSum_from a data :
  foldl (λ a b, a + Z.of_N (Byte.to_N b)) a data = a + byteSum data.
Proof.
  unfold byteSum. revert a.
  induction data as [|b data IH]; intros a; cbn [foldl]; [lia|].
  rewrite IH, (IH (0 + _)). lia.
Qed.

Lemma byteSum_range data :
  0 <= byteSum data <= 255 * Z.of_nat (length data).
Proof.
  induction data as [|b data IH]; [cbn; lia|].
  unfold byteSum. cbn [foldl]. rewrite byteSum_from.
  pose proof (byte_range b). cbn [length]. lia.
Qed.

(** X7.  For non-empty audio data the scale of the orb,
    1 + (mean / 255) * 0.15, lies between 1 and 1.15. *)
Theorem orb_audio_scale_range (data : list Byte.byte) :
  data <> [] -> (1 <= audioScaleOf data <= 1.15)%Q.
Proof.
  intros Hne. unfold audioScaleOf.
  set (n := Z.of_nat (length data)).
  assert (Hn : 0 < n) by (destruct data; [contradiction|unfold n; cbn; lia]).
  destruct (byteSum_range data) as [H0 H1]. fold n in H1.
  assert (HnQ : (0 < inject_Z n)%Q)
    by (change 0%Q with (inject_Z 0); rewrite <- Zlt_Qlt; exact Hn).
  rewrite Zle_Qle in H0, H1. rewrite inject_Z_mult in H1.
  change (inject_Z 0) with 0%Q in H0. change (inject_Z 255) with 255%Q in H1.
  assert (Ha0 : (0 <= inject_Z (byteSum data) / inject_Z n)%Q)
    by (apply Qle_shift_div_l; lra).
  assert (Ha1 : (inject_Z (byteSum data) / inject_Z n <= 255)%Q)
    by (apply Qle_shift_div_r; lra).
  assert (Hb0 : (0 <= inject_Z (byteSum data) / inject_Z n / 255)%Q)
    by (apply Qle_shift_div_l; lra).
  assert (Hb1 : (inject_Z (byteSum data) / inject_Z n / 255 <= 1)%Q)
    by (apply Qle_shift_div_r; lra).
  split; lra.
Qed.

Lemma orb_audio_scale_range_witness :
  [Byte.x00; Byte.xff] <> []
  /\ (1 <= audioScaleOf [Byte.x00; Byte.xff] <= 1.15)%Q.
Proof.
  assert (H : [Byte.x00; Byte.xff] <> []) by discriminate.
  split; [exact H|]. apply (orb_audio_scale_range _ H).
Defined.

(** * Neural network connections *)

Lemma flat_map_bind {A B} (f : A -> list B) l : flat_map f l = l ≫= f.
Proof. induction l as [|x l IH]; cbn; [reflexivity|]. rewrite IH. reflexivity. Qed.

Lemma elem_of_connections n i j a b :
  ((i, j), (a, b)) ∈ connections n
  <-> (i < n)%nat /\ (j < n - (i + 1))%nat /\ a = i /\ b = (i + j + 1)%nat.
Proof.
  unfold connections. rewrite flat_map_bind, list_elem_of_bind. split.
  - intros (i' & Hin & Hi'). apply elem_of_seq in Hi'.
    apply (proj1 (list_elem_of_fmap _ _ _)) in Hin as (j' & Heq & Hj').
    apply elem_of_seq in Hj'. injection Heq as -> -> -> ->. lia.
  - intros (Hi & Hj & -> & ->). exists i. split.
    + apply (proj2 (list_elem_of_fmap _ _ _)). exists j.
      split; [reflexivity|]. apply elem_of_seq. lia.
    + apply elem_of_seq. lia.
Qed.

Lemma NoDup_connections n : NoDup (connections n).
Proof.
  unfold connections. rewrite flat_map_bind. apply NoDup_bind.
  - intros i1 i2 [[i j] [a b]] _ _ H1 H2.
    apply (proj1 (list_elem_of_fmap _ _ _)) in H1 as (j1 & Heq1 & _).
    apply (proj1 (list_elem_of_fmap _ _ _)) in H2 as (j2 & Heq2 & _).
    congruence.
  - intros i _. apply NoDup_fmap_2_strong; [|apply NoDup_seq].
    intros j1 j2 _ _ Heq. congruence.
  - apply NoDup_seq.
Qed.

(** X8.  Between n nodes a connection is drawn exactly for every pair of
    node indices a < b < n, once: the list has no repetition, its keys
    (i, j) are all different and so are its pairs of end points.  Both end
    points are indices of existing nodes, and for the four modules there
    are six connections. *)
Theorem connections_are_the_pairs (n : nat) :
  (forall a b,
      (exists k, (k, (a, b)) ∈ connections n) <-> (a < b < n)%nat)
  /\ NoDup (connections n).*1
  /\ NoDup (connections n).*2
  /\ (forall k a b, (k, (a, b)) ∈ connections (length MODULES) ->
        is_Some (MODULES !! a) /\ is_Some (MODULES !! b))
  /\ length (connections (length MODULES)) = 6%nat.
Proof.
  split; [|split; [|split; [|split]]].
  - intros a b. split.
    + intros ([i j] & H). apply elem_of_connections in H. lia.
    + intros H. exists (a, (b - a - 1)%nat). apply elem_of_connections. lia.
  - apply NoDup_fmap_2_strong; [|apply NoDup_connections].
    intros [[i1 j1] [a1 b1]] [[i2 j2] [a2 b2]] H1 H2 Heq.
    apply elem_of_connections in H1, H2. cbn in Heq.
    injection Heq as -> ->. f_equal. f_equal; lia.
  - apply NoDup_fmap_2_strong; [|apply NoDup_connections].
    intros [[i1 j1] [a1 b1]] [[i2 j2] [a2 b2]] H1 H2 Heq.
    apply elem_of_connections in H1, H2. cbn in Heq.
    injection Heq as -> ->. f_equal. f_equal; lia.
  - intros [i j] a b H. apply elem_of_connections in H.
    split; apply lookup_lt_is_Some; lia.
  - reflexivity.
Qed.

Lemma connections_are_the_pairs_witness :
  (1 < 3 < 4)%nat /\ exists k, (k, (1, 3)%nat) ∈ connections 4.
Proof.
  assert (H : (1 < 3 < 4)%nat) by lia.
  split; [exact H|].
  apply (proj2 (proj1 (connections_are_the_pairs 4) 1%nat 3%nat) H).
Defined.

(** * More on deliveries *)

Lemma sameNumber_refl a : sameNumber a a = true.
Proof. destruct a as [q|]; cbn; [apply Qeq_bool_refl|reflexivity]. Qed.

Lemma sameFlag_refl a : sameFlag a a = true.
Proof. destruct a as [[]|]; reflexivity. Qed.

Lemma phaseDepsChanged_same pg ph : phaseDepsChanged pg pg ph ph = false.
Proof.
  unfold phaseDepsChanged.
  rewrite sameNumber_refl, sameObject_refl, sameFlag_refl.
  replace (phase_eqb ph ph) with true
    by (symmetry; apply phase_eqb_eq; reflexivity).
  reflexivity.
Qed.

Lemma renderedPg_rerender n pg s :
  renderedPg s = pg -> renderedPg (rerender n pg s) = pg.
Proof.
  revert s. induction n as [|n IH]; intros s H; cbn [rerender]; [exact H|].
  destruct (phase_eqb _ _); [exact H|]. apply IH, renderedPg_commit.
Qed.

Lemma renderedPg_deliver pg s : renderedPg (deliver pg s) = pg.
Proof. unfold deliver. apply renderedPg_rerender, renderedPg_commit. Qed.

(** A render with nothing new: no effect runs. *)
Lemma commit_nothing_new pg s :
  renderedPg s = pg -> phase s = renderedPhase s -> commit pg s = s.
Proof.
  intros Hpg Hph. unfold commit.
  rewrite Hpg, <- Hph, pingDepsChanged_same, phaseDepsChanged_same.
  destruct s; cbn in *; subst; reflexivity.
Qed.

(** X9.  Delivering the same [pg] a second time changes nothing at all:
    no effect runs again, so no cue is played, no timer armed or cleared
    and no state set. *)
Theorem same_progress_again_is_ignored (pg : option InitProgress)
    (s : State) :
  deliver pg (deliver pg s) = deliver pg s.
Proof.
  unfold deliver at 1.
  rewrite (commit_nothing_new pg (deliver pg s) (renderedPg_deliver pg s)
             (deliver_settled pg s)).
  cbn [rerender].
  replace (phase_eqb (phase (deliver pg s)) (renderedPhase (deliver pg s)))
    with true; [reflexivity|].
  symmetry. apply phase_eqb_eq, deliver_settled.
Qed.

Lemma allReady_no_modules pg : pg ≫= modules = None -> allReady pg = false.
Proof.
  intros H. unfold allReady, modulesOrEmpty. rewrite H. reflexivity.
Qed.

Lemma anyModuleData_no_modules pg :
  pg ≫= modules = None -> anyModuleData pg = false.
Proof. intros H. unfold anyModuleData. rewrite H. reflexivity. Qed.

(** X10.  Mounted with a snapshot that has no [modules] and
    [systemReady] false, the component is in AWAKENING when percent is
    absent or at most 0.15, in ACTIVATION when it is above 0.15 and at
    most 0.30, and in MODULES (ACTIVATION is set and overwritten in the
    same effect run) when it is above 0.30. *)
Theorem percent_alone_decides (p : InitProgress) :
  modules p = None -> systemReady p = false ->
  phase (mount (Some p))
  = (if Qgtb (pctOf (Some p)) 0.3 then INTEGRATION
     else if Qgtb (pctOf (Some p)) 0.15 then ACTIVATION
     else AWAKENING).
Proof.
  intros Hm Hr. rewrite phase_mount.
  unfold nextPhase, guardStable, guardModules, guardActivation.
  rewrite allReady_no_modules, anyModuleData_no_modules by exact Hm.
  cbn [sysReady]. rewrite Hr. cbn.
  rewrite orb_false_r. reflexivity.
Qed.

Lemma percent_alone_decides_witness :
  modules (atPercent 0.16) = None /\ systemReady (atPercent 0.16) = false
  /\ phase (mount (Some (atPercent 0.16))) = ACTIVATION
  /\ phase (mount (Some (atPercent 0.35))) = INTEGRATION
  /\ phase (mount (Some (atPercent 0.1))) = AWAKENING.
Proof.
  split; [reflexivity|]. split; [reflexivity|]. split; [|split].
  - rewrite (percent_alone_decides (atPercent 0.16) eq_refl eq_refl).
    vm_compute. reflexivity.
  - rewrite (percent_alone_decides (atPercent 0.35) eq_refl eq_refl).
    vm_compute. reflexivity.
  - rewrite (percent_alone_decides (atPercent 0.1) eq_refl eq_refl).
    vm_compute. reflexivity.
Defined.

Lemma nextPhase_stable pg ph :
  sysReady pg || allReady pg = true -> nextPhase pg ph = STABLE.
Proof.
  intros H. unfold nextPhase, guardStable, guardModules, guardActivation.
  rewrite H. unfold phase_eqb. destruct ph; cbn;
    repeat match goal with |- context [if ?b then _ else _] => destruct b end;
    reflexivity.
Qed.

(** X11.  A snapshot with [systemReady] true, or with all four modules
    ready, takes the component to STABLE in one step from any phase and
    whatever its percent and its other modules: at mount, and at any later
    delivery on which the phase effect runs. *)
Theorem ready_goes_straight_to_stable (p : InitProgress) :
  systemReady p = true \/ allReady (Some p) = true ->
  phase (mount (Some p)) = STABLE
  /\ (forall s,
        phaseDepsChanged (renderedPg s) (Some p) (renderedPhase s) (phase s)
        = true ->
        phase (deliver (Some p) s) = STABLE).
Proof.
  intros H.
  assert (Hs : sysReady (Some p) || allReady (Some p) = true)
    by (cbn [sysReady]; destruct H as [->| ->];
        [reflexivity|apply orb_true_r]).
  split.
  - rewrite phase_mount. apply nextPhase_stable, Hs.
  - intros s Hd. rewrite phase_deliver, Hd. apply nextPhase_stable, Hs.
Qed.

Lemma ready_goes_straight_to_stable_witness :
  let p := snap true (Some 0%Q)
             (Some (obj 1 [("Speech System", true); ("Voice Engine", true)])) in
  systemReady p = true /\ phase (mount (Some p)) = STABLE.
Proof.
  cbv zeta. split; [reflexivity|].
  apply (ready_goes_straight_to_stable
           (snap true (Some 0%Q)
              (Some (obj 1 [("Speech System", true); ("Voice Engine", true)])))
           (or_introl eq_refl)).
Defined.

(** * Invariants of a component instance *)

(** To show that a property holds after every run, it is enough to show
    that each effect, each timer callback and the unmount keep it. *)
Section ReachableInd.

Variable P : State -> Prop.
Hypothesis P_first : forall pg, P (ambienceEffect (pingEffect pg initial)).
Hypothesis P_ping : forall pg s, P s -> P (pingEffect pg s).
Hypothesis P_phase : forall pg s, P s -> P (phaseEffect pg s).
Hypothesis P_cleanup : forall s, P s -> P (runPhaseCleanup s).
Hypothesis P_rendered : forall pg p s, P s -> P (setRendered pg p s).
Hypothesis P_fire :
  forall tm s, quiet s -> tm ∈ timers s -> P s -> P (fire tm s).
Hypothesis P_clock : forall t s, clock s <= t -> P s -> P (setClock t s).
Hypothesis P_unmount : forall s, quiet s -> P s -> P (unmount s).

Lemma P_commit pg s : P s -> P (commit pg s).
Proof.
  intros H. unfold commit. apply P_rendered.
  destruct (phaseDepsChanged _ _ _ _), (pingDepsChanged _ _); auto.
Qed.

Lemma P_rerender n pg s : P s -> P (rerender n pg s).
Proof.
  revert s. induction n as [|n IH]; intros s H; cbn [rerender]; [exact H|].
  destruct (phase_eqb _ _); [exact H|]. apply IH, P_commit, H.
Qed.

Lemma P_deliver pg s : P s -> P (deliver pg s).
Proof. intros H. unfold deliver. apply P_rerender, P_commit, H. Qed.

Lemma P_mount pg : P (mount pg).
Proof.
  unfold mount. apply P_rerender, P_rendered, P_phase, P_first.
Qed.

Lemma clock_fire tm s : clock (fire tm s) = Z.max (clock s) (due tm).
Proof.
  destruct s as [? ? ? ? ? ? ? ? ? ? ? ? ? [] ?], tm as [? ? []]; reflexivity.
Qed.

Lemma P_runTimers n d s :
  clock s <= d -> quiet s -> P s ->
  P (runTimers n d s) /\ clock (runTimers n d s) <= d.
Proof.
  revert s. induction n as [|n IH]; intros s Hc Hq H; cbn [runTimers];
    [split; assumption|].
  destruct (earliest (timers s)) as [tm|] eqn:He; [|split; assumption].
  destruct (Z.leb_spec (due tm) d); [|split; assumption].
  pose proof (earliest_elem _ _ He) as Hin.
  apply IH; [rewrite clock_fire; lia|apply quiet_fire; assumption
            |apply P_fire; assumption].
Qed.

Lemma P_step e s : quiet s -> P s -> P (step e s).
Proof.
  intros Hq H. destruct e as [pg|dt|]; cbn [step].
  - destruct (mounted s); [apply P_deliver|]; exact H.
  - unfold advance.
    destruct (P_runTimers (totalWeight (timers s))
                (clock s + Z.max 0 dt) s ltac:(lia) Hq H) as [Hp Hc].
    apply P_clock; assumption.
  - destruct (mounted s); [apply P_unmount|]; assumption.
Qed.

Lemma P_run evs s : quiet s -> P s -> P (run evs s).
Proof.
  revert s. induction evs as [|e evs IH]; intros s Hq H; cbn; [exact H|].
  apply IH; [apply quiet_step, Hq|apply P_step; assumption].
Qed.

Lemma reachable_ind pg0 evs : P (run evs (mount pg0)).
Proof. apply P_run; [apply quiet_mount|apply P_mount]. Qed.

End ReachableInd.

(** ** What the primitives do to the cues and the flags *)

Lemma cues_fire tm s :
  cues (fire tm s)
  = cues s ++ match action tm with AmbiencePlay => [AmbienceStart] | _ => [] end.
Proof.
  destruct s as [? ? ? ? ? ? ? ? ? ? ? ? ? [] ?], tm as [? ? []]; cbn;
    rewrite ?app_nil_r; reflexivity.
Qed.

Lemma cues_unmount s : cues (unmount s) = cues s.
Proof.
  unfold unmount. cbn [cues setMounted]. rewrite cues_runPhaseCleanup.
  destruct (ambienceTimer s); reflexivity.
Qed.

Lemma cueCount_app c s l :
  length (List.filter c (cues s ++ l))
  = (cueCount c s + length (List.filter c l))%nat.
Proof. unfold cueCount. rewrite List.filter_app, length_app. reflexivity. Qed.

Lemma no_pings_counted c (l : list string) :
  (forall m, c (PingPlay m) = false) ->
  length (List.filter c (map PingPlay l)) = 0%nat.
Proof.
  intros Hc. induction l as [|m l IH]; [reflexivity|].
  cbn. rewrite Hc. exact IH.
Qed.

(** ** Chime and ambience fade-out *)

Lemma stableCuesOK_phaseEffect pg s :
  stableCuesOK s -> stableCuesOK (phaseEffect pg s).
Proof.
  unfold stableCuesOK, cueCount. rewrite cues_phaseEffect, phase_phaseEffect.
  rewrite !List.filter_app, !length_app. intros [H1 H2]. rewrite H1, H2.
  unfold nextPhase, guardStable, guardModules, guardActivation, phase_eqb.
  destruct (sysReady pg || allReady pg),
    (Qgtb (pctOf pg) 0.3 || anyModuleData pg),
    (Qgtb (pctOf pg) 0.15), (phase s); cbn; split; reflexivity.
Qed.

Lemma stableCuesOK_fire tm s : stableCuesOK s -> stableCuesOK (fire tm s).
Proof.
  unfold stableCuesOK, cueCount. rewrite cues_fire, phase_fire.
  rewrite !List.filter_app, !length_app. intros [-> ->].
  destruct (action tm); cbn; split; lia.
Qed.

Lemma stableCuesOK_reachable pg0 evs : stableCuesOK (run evs (mount pg0)).
Proof.
  assert (Hping : forall pg s, stableCuesOK s -> stableCuesOK (pingEffect pg s)).
  { intros pg s [H1 H2]. unfold stableCuesOK. rewrite phase_pingEffect.
    rewrite pingEffect_eq. unfold cueCount in *. cbn [cues].
    rewrite !List.filter_app, !length_app, !no_pings_counted
      by reflexivity. split; lia. }
  apply reachable_ind.
  - intros pg. apply (Hping pg initial). split; reflexivity.
  - exact Hping.
  - apply stableCuesOK_phaseEffect.
  - intros s H. unfold stableCuesOK, cueCount.
    rewrite cues_runPhaseCleanup, phase_runPhaseCleanup. exact H.
  - intros pg p s H. exact H.
  - intros tm s _ _. apply stableCuesOK_fire.
  - intros t s _ H. exact H.
  - intros s _ H. unfold stableCuesOK, cueCount.
    rewrite cues_unmount, phase_unmount. exact H.
Qed.

(** X12.  In every state a component instance reaches, the system-ready
    chime and the ambience fade-out have each been played exactly once if
    the phase is STABLE and not at all otherwise: entering STABLE plays
    them once, and no later snapshot, timer or unmount plays them again. *)
Theorem stable_cues_exactly_once (pg0 : option InitProgress)
    (evs : list Event) :
  let s := run evs (mount pg0) in
  cueCount isChime s = (if phase_eqb (phase s) STABLE then 1 else 0)%nat
  /\ cueCount isAmbienceFade s
     = (if phase_eqb (phase s) STABLE then 1 else 0)%nat.
Proof. apply stableCuesOK_reachable. Qed.

(** ** The screen stays *)

Lemma fadeOut_phaseEffect pg s : fadeOut (phaseEffect pg s) = fadeOut s.
Proof.
  unfold phaseEffect.
  destruct (guardStable pg (phase s)), (guardActivation pg (phase s)),
    (guardModules pg (phase s)); reflexivity.
Qed.

Lemma fadeOut_runPhaseCleanup s : fadeOut (runPhaseCleanup s) = fadeOut s.
Proof. unfold runPhaseCleanup. destruct (phaseCleanup s); reflexivity. Qed.

Lemma fadeOut_fire tm s :
  action tm <> HoldElapsed -> fadeOut (fire tm s) = fadeOut s.
Proof.
  destruct s as [? ? ? ? ? ? ? ? ? ? ? ? ? [] ?], tm as [? ? []]; cbn;
    intros H; first [reflexivity|contradiction].
Qed.

Lemma fadeOut_reachable pg0 evs : fadeOut (run evs (mount pg0)) = false.
Proof.
  apply (reachable_ind (λ s, fadeOut s = false)).
  - intros pg. unfold ambienceEffect.
    cbn [setTimeout fadeOut setAmbienceTimer setTimers].
    rewrite pingEffect_eq. reflexivity.
  - intros pg s H. rewrite pingEffect_eq. exact H.
  - intros pg s H. rewrite fadeOut_phaseEffect. exact H.
  - intros s H. rewrite fadeOut_runPhaseCleanup. exact H.
  - intros pg p s H. exact H.
  - intros tm s (_ & _ & Hq) Hin H. rewrite fadeOut_fire; [exact H|].
    apply (Hq tm Hin).
  - intros t s _ H. exact H.
  - intros s _ H. unfold unmount. cbn [fadeOut setMounted].
    rewrite fadeOut_runPhaseCleanup. destruct (ambienceTimer s); exact H.
Qed.

(** X13.  In every state a component instance reaches the fade-out flag
    is false, so the initialization screen is still rendered, and the
    host's [showMain] is false: [App] never shows its main content. *)
Theorem screen_never_leaves (pg0 : option InitProgress) (evs : list Event) :
  let s := run evs (mount pg0) in
  fadeOut s = false /\ screenShown s = true /\ showMain s = false.
Proof.
  cbv zeta. pose proof (fadeOut_reachable pg0 evs) as Hf.
  destruct (quiet_reachable pg0 evs) as (Hd & _).
  unfold screenShown, showMain. rewrite Hf, Hd. repeat split.
Qed.

(** ** The ambience start *)

Lemma glitchTimers_tid base d n tm :
  tm ∈ glitchTimers base d n -> (base <= tid tm)%nat.
Proof.
  revert base. induction n as [|n IH]; intros base; cbn; intros H.
  - inversion H.
  - apply elem_of_cons in H as [->|H]; [cbn; lia|]. apply IH in H. lia.
Qed.

Lemma glitchTimers_upper base d n tm :
  tm ∈ glitchTimers base d n -> (tid tm < base + n)%nat.
Proof.
  revert base. induction n as [|n IH]; intros base; cbn; intros H.
  - inversion H.
  - apply elem_of_cons in H as [->|H]; [cbn; lia|]. apply IH in H. lia.
Qed.

Lemma ambCount_app (l k : list Timer) :
  length (List.filter isAmbienceTimer (l ++ k))
  = (length (List.filter isAmbienceTimer l)
     + length (List.filter isAmbienceTimer k))%nat.
Proof. rewrite List.filter_app, length_app. reflexivity. Qed.

Lemma ambCount_none (l : list Timer) :
  (forall tm, tm ∈ l -> action tm <> AmbiencePlay) ->
  length (List.filter isAmbienceTimer l) = 0%nat.
Proof.
  induction l as [|t l IH]; intros H; [reflexivity|]. cbn.
  assert (Ht : isAmbienceTimer t = false).
  { unfold isAmbienceTimer.
    pose proof (H t (list_elem_of_here _ _)) as Hn.
    destruct (action t); first [reflexivity|contradiction]. }
  rewrite Ht. apply IH. intros tm Hin. apply H, list_elem_of_further, Hin.
Qed.

Lemma ambCount_filter_le (P : Timer -> Prop) `{!forall x, Decision (P x)} l :
  (length (List.filter isAmbienceTimer (filter P l))
   <= length (List.filter isAmbienceTimer l))%nat.
Proof.
  induction l as [|t l IH]; [reflexivity|]. rewrite filter_cons.
  destruct (decide (P t)); cbn; destruct (isAmbienceTimer t); cbn; lia.
Qed.

Lemma ambCount_filter_out (P : Timer -> Prop) `{!forall x, Decision (P x)}
    l tm :
  tm ∈ l -> ~ P tm -> action tm = AmbiencePlay ->
  (length (List.filter isAmbienceTimer (filter P l)) + 1
   <= length (List.filter isAmbienceTimer l))%nat.
Proof.
  induction l as [|t l IH]; intros Hin Hn Ha; [inversion Hin|].
  rewrite filter_cons. apply elem_of_cons in Hin as [<-|Hin].
  - rewrite decide_False by exact Hn. cbn. unfold isAmbienceTimer at 2.
    rewrite Ha. cbn. pose proof (ambCount_filter_le P l). lia.
  - specialize (IH Hin Hn Ha).
    destruct (decide (P t)); cbn; destruct (isAmbienceTimer t); cbn; lia.
Qed.

(** An effect that only adds timers of other kinds, with fresh handles,
    keeps the invariant. *)
Lemma ambienceOK_grow s s' new :
  timers s' = timers s ++ new ->
  (forall tm, tm ∈ new ->
     action tm <> AmbiencePlay /\ (nextTimer s <= tid tm)%nat) ->
  (nextTimer s <= nextTimer s')%nat ->
  (forall t, phaseCleanup s' = Some t ->
     phaseCleanup s = Some t \/ (nextTimer s <= t)%nat) ->
  ambienceTimer s' = ambienceTimer s -> mounted s' = mounted s ->
  clock s' = clock s ->
  cueCount isAmbienceStart s' = cueCount isAmbienceStart s ->
  ambienceOK s -> ambienceOK s'.
Proof.
  intros Ht Hnew Hn Hc Ha Hm Hk Hq (H1 & H2 & H3 & H4 & H5).
  unfold ambienceOK. rewrite Ht, Ha, Hm, Hk, Hq.
  split; [|split; [|split; [|split]]].
  - intros tm Hin Hact. apply elem_of_app in Hin as [Hin|Hin]; [auto|].
    destruct (Hnew tm Hin) as [Hne _]. contradiction.
  - rewrite ambCount_app, (ambCount_none new); [lia|].
    intros tm Hin. apply (Hnew tm Hin).
  - intros a Hsome. destruct (H3 a Hsome) as (Hlt & Hcl & Htm).
    split; [lia|]. split.
    + intros t Hs' ->. destruct (Hc a Hs') as [Hold|Hge];
        [exact (Hcl a Hold eq_refl)|lia].
    + intros tm Hin Htid. apply elem_of_app in Hin as [Hin|Hin]; [auto|].
      destruct (Hnew tm Hin) as [_ Hge]. lia.
  - intros Hmt Hz. destruct (H4 Hmt Hz) as (tm & Hin & Hact).
    exists tm. split; [apply elem_of_app; left; exact Hin|exact Hact].
  - exact H5.
Qed.

Lemma ambienceOK_pingEffect pg s : ambienceOK s -> ambienceOK (pingEffect pg s).
Proof.
  apply (ambienceOK_grow s (pingEffect pg s)
           (glitchTimers (nextTimer s) (clock s + 200)
              (length (risingEdges (prevModulesRef s) (modulesOrEmpty pg)))));
    rewrite ?pingEffect_eq; cbn; try reflexivity.
  - intros tm Hin. split; [|apply (glitchTimers_tid _ _ _ _ Hin)].
    apply glitchTimers_action in Hin as [-> _]. discriminate.
  - lia.
  - intros t Ht. left. exact Ht.
  - unfold cueCount. cbn [cues]. rewrite List.filter_app, length_app.
    rewrite no_pings_counted by reflexivity. lia.
Qed.

Lemma phaseEffect_frame pg s :
  exists new,
    timers (phaseEffect pg s) = timers s ++ new
    /\ (forall tm, tm ∈ new ->
          action tm <> AmbiencePlay /\ (nextTimer s <= tid tm)%nat
          /\ clock s < due tm)
    /\ (nextTimer s <= nextTimer (phaseEffect pg s))%nat
    /\ (forall t, phaseCleanup (phaseEffect pg s) = Some t ->
          (nextTimer s <= t)%nat)
    /\ ambienceTimer (phaseEffect pg s) = ambienceTimer s
    /\ mounted (phaseEffect pg s) = mounted s
    /\ clock (phaseEffect pg s) = clock s
    /\ cueCount isAmbienceStart (phaseEffect pg s)
       = cueCount isAmbienceStart s.
Proof.
  assert (Hq : cueCount isAmbienceStart (phaseEffect pg s)
               = cueCount isAmbienceStart s).
  { unfold cueCount. rewrite cues_phaseEffect, List.filter_app, length_app.
    destruct (guardStable _ _); cbn; lia. }
  unfold phaseEffect in *.
  destruct (guardActivation pg (phase s)), (guardModules pg (phase s)),
    (guardStable pg (phase s)); cbn in *; rewrite <- ?app_assoc in *;
    (eexists; split;
     [first [reflexivity | symmetry; apply app_nil_r]|]);
    (split;
     [intros tm Hin;
      repeat (apply elem_of_cons in Hin as [->|Hin]);
      first [inversion Hin | cbn; split; [discriminate|lia]]|]);
    (split; [lia|]); (split; [intros t [= <-]; lia|]);
    repeat split; exact Hq.
Qed.

Lemma ambienceOK_phaseEffect pg s :
  ambienceOK s -> ambienceOK (phaseEffect pg s).
Proof.
  destruct (phaseEffect_frame pg s)
    as (new & Ht & Hnew & Hn & Hc & Ha & Hm & Hk & Hq).
  apply (ambienceOK_grow s (phaseEffect pg s) new); try assumption.
  - intros tm Hin. destruct (Hnew tm Hin) as (H1 & H2 & _). split; assumption.
  - intros t Hs. right. apply Hc, Hs.
Qed.

Lemma ambienceOK_runPhaseCleanup s :
  ambienceOK s -> ambienceOK (runPhaseCleanup s).
Proof.
  intros H. pose proof H as (H1 & H2 & H3 & H4 & H5). unfold runPhaseCleanup.
  destruct (phaseCleanup s) as [t|] eqn:Hc; [|exact H].
  unfold ambienceOK, cueCount. cbn.
  split; [|split; [|split; [|split]]].
  - intros tm Hin. apply list_elem_of_filter in Hin as [_ Hin]. auto.
  - pose proof (ambCount_filter_le (λ tm, tid tm ≠ t) (timers s)).
    unfold cueCount in H2. lia.
  - intros a Ha. destruct (H3 a Ha) as (Hlt & _ & Htm).
    split; [exact Hlt|]. split; [discriminate|].
    intros tm Hin. apply list_elem_of_filter in Hin as [_ Hin]. auto.
  - intros Hm Hz. destruct (H4 Hm Hz) as (tm & Hin & Hact).
    exists tm. split; [|exact Hact]. apply list_elem_of_filter.
    split; [|exact Hin]. destruct (H1 tm Hin Hact) as (Ha & _).
    destruct (H3 _ Ha) as (_ & Hcl & _). intros Heq.
    apply (Hcl t eq_refl). symmetry. exact Heq.
  - exact H5.
Qed.

Lemma ambienceOK_ambienceEffect s :
  (forall tm, tm ∈ timers s ->
     action tm <> AmbiencePlay /\ (tid tm < nextTimer s)%nat) ->
  cueCount isAmbienceStart s = 0%nat -> clock s = 0 -> mounted s = true ->
  phaseCleanup s = None ->
  ambienceOK (ambienceEffect s).
Proof.
  intros Ht Hq Hk Hm Hc. unfold ambienceOK, cueCount in *. cbn.
  rewrite Hq, Hk, Hm, Hc.
  assert (Hg : forall tm, tm ∈ timers s -> action tm <> AmbiencePlay).
  { intros tm Hin. apply (Ht tm Hin). }
  split; [|split; [|split; [|split]]].
  - intros tm Hin Hact. apply elem_of_app in Hin as [Hin|Hin];
      [destruct (Hg tm Hin Hact)|].
    apply list_elem_of_singleton in Hin. subst tm. cbn. repeat split.
  - rewrite ambCount_app, (ambCount_none _ Hg). cbn. lia.
  - intros a [= <-]. split; [lia|]. split; [discriminate|].
    intros tm Hin Htid. apply elem_of_app in Hin as [Hin|Hin].
    + exfalso. destruct (Ht tm Hin) as [_ Hlt]. lia.
    + apply list_elem_of_singleton in Hin. subst tm. reflexivity.
  - intros _ _. eexists. split; [apply elem_of_app; right;
                                 apply list_elem_of_here|reflexivity].
  - lia.
Qed.

Lemma ambienceOK_first pg : ambienceOK (ambienceEffect (pingEffect pg initial)).
Proof.
  apply ambienceOK_ambienceEffect; rewrite pingEffect_eq;
    cbv zeta; cbn [timers nextTimer clock cues mounted phaseCleanup];
    try reflexivity.
  - intros tm Hin. unfold initial in Hin.
    cbn [timers nextTimer clock app] in Hin. split.
    + apply glitchTimers_action in Hin as [-> _]. discriminate.
    + apply glitchTimers_upper in Hin. unfold initial.
      cbn [nextTimer]. exact Hin.
  - unfold cueCount.
    cbn [timers nextTimer clock cues mounted phaseCleanup initial app].
    apply no_pings_counted. reflexivity.
Qed.

Lemma fire_frame tm s :
  action tm = ClearGlitch \/ action tm = AmbiencePlay ->
  ambienceTimer (fire tm s) = ambienceTimer s
  /\ mounted (fire tm s) = mounted s
  /\ nextTimer (fire tm s) = nextTimer s
  /\ phaseCleanup (fire tm s) = phaseCleanup s
  /\ cues (fire tm s)
     = cues s ++ match action tm with
                 | AmbiencePlay => [AmbienceStart]
                 | _ => []
                 end.
Proof.
  destruct s as [? ? ? ? ? ? ? ? ? ? ? ? ? [] ?], tm as [? ? []]; cbn;
    intros [H|H]; try discriminate; rewrite ?app_nil_r; repeat split.
Qed.

Lemma ambienceOK_fire tm s :
  quiet s -> tm ∈ timers s -> ambienceOK s -> ambienceOK (fire tm s).
Proof.
  intros (_ & _ & Hq) Hin (H1 & H2 & H3 & H4 & H5).
  destruct (Hq tm Hin) as [Hnd Hnh].
  assert (Hcases : action tm = ClearGlitch \/ action tm = AmbiencePlay).
  { destruct (action tm); first [left; reflexivity | right; reflexivity
                                | contradiction]. }
  assert (Ht : timers (fire tm s) = filter (λ x, tid x ≠ tid tm) (timers s)).
  { rewrite timers_fire. destruct Hcases as [-> | ->]; apply app_nil_r. }
  assert (Hk : clock (fire tm s) = Z.max (clock s) (due tm))
    by apply clock_fire.
  destruct (fire_frame tm s Hcases) as (Ha & Hm & Hn & Hc & Hcue).
  unfold ambienceOK, cueCount. rewrite Ht, Hk, Ha, Hm, Hn, Hc, Hcue.
  rewrite List.filter_app, length_app. unfold cueCount in *.
  split; [|split; [|split; [|split]]].
  - intros u Hu. apply list_elem_of_filter in Hu as [_ Hu]. auto.
  - destruct Hcases as [Hact | Hact]; rewrite Hact; cbn.
    + pose proof (ambCount_filter_le (λ x, tid x ≠ tid tm) (timers s)). lia.
    + pose proof (ambCount_filter_out (λ x, tid x ≠ tid tm) (timers s) tm
                    Hin (fun H => H eq_refl) Hact). lia.
  - intros a Hs. destruct (H3 a Hs) as (Hlt & Hcl & Htm).
    split; [exact Hlt|]. split; [exact Hcl|].
    intros u Hu. apply list_elem_of_filter in Hu as [_ Hu]. auto.
  - intros Hmt Hz. destruct Hcases as [Hact | Hact]; rewrite Hact in Hz;
      cbn in Hz; [|lia].
    destruct (H4 Hmt ltac:(lia)) as (u & Hu & Hua).
    exists u. split; [|exact Hua]. apply list_elem_of_filter.
    split; [|exact Hu]. intros Heq.
    destruct (H1 u Hu Hua) as (Hsome & _).
    destruct (H3 _ Hsome) as (_ & _ & Htm).
    specialize (Htm tm Hin (eq_sym Heq)). congruence.
  - intros Hone. destruct Hcases as [Hact | Hact]; rewrite Hact in Hone;
      cbn in Hone.
    + lia.
    + destruct (H1 tm Hin Hact) as (_ & _ & Hdue). lia.
Qed.

Lemma ambienceOK_setClock t s :
  clock s <= t -> ambienceOK s -> ambienceOK (setClock t s).
Proof.
  intros Hle (H1 & H2 & H3 & H4 & H5).
  split; [exact H1|]. split; [exact H2|]. split; [exact H3|].
  split; [exact H4|]. intros Hone. specialize (H5 Hone). cbn. lia.
Qed.

Lemma unmount_fields s :
  mounted (unmount s) = false /\ ambienceTimer (unmount s) = None
  /\ clock (unmount s) = clock s
  /\ forall tm, tm ∈ timers (unmount s) ->
       tm ∈ timers s /\ ambienceTimer s <> Some (tid tm).
Proof.
  unfold unmount, runPhaseCleanup.
  destruct (ambienceTimer s) as [a|] eqn:Ha; cbn;
    [destruct (phaseCleanup s) as [c|] | destruct (phaseCleanup s) as [c|]];
    cbn; rewrite ?Ha; repeat split; try discriminate;
    repeat (match goal with
            | H : _ ∈ filter _ _ |- _ =>
                apply list_elem_of_filter in H as [? H]
            end); try assumption; congruence.
Qed.

Lemma ambienceOK_unmount s : ambienceOK s -> ambienceOK (unmount s).
Proof.
  intros (H1 & H2 & H3 & H4 & H5).
  destruct (unmount_fields s) as (Hm & Ha & Hk & Ht).
  assert (Hno : forall tm, tm ∈ timers (unmount s) ->
                           action tm <> AmbiencePlay).
  { intros tm Hin Hact. destruct (Ht tm Hin) as [Hin' Hne].
    destruct (H1 tm Hin' Hact) as (Hs & _). contradiction. }
  unfold ambienceOK, cueCount. rewrite Hm, Ha, Hk, cues_unmount.
  unfold cueCount in *.
  split; [|split; [|split; [|split]]].
  - intros tm Hin Hact. destruct (Hno tm Hin Hact).
  - rewrite (ambCount_none _ Hno). lia.
  - discriminate.
  - discriminate.
  - exact H5.
Qed.

Lemma ambienceOK_reachable pg0 evs : ambienceOK (run evs (mount pg0)).
Proof.
  apply reachable_ind.
  - apply ambienceOK_first.
  - apply ambienceOK_pingEffect.
  - apply ambienceOK_phaseEffect.
  - apply ambienceOK_runPhaseCleanup.
  - intros pg p s H. exact H.
  - apply ambienceOK_fire.
  - apply ambienceOK_setClock.
  - intros s _. apply ambienceOK_unmount.
Qed.

(** ** Pending timers between events *)

Lemma timersAhead_first pg :
  timersAhead (ambienceEffect (pingEffect pg initial)).
Proof.
  unfold ambienceEffect, timersAhead. rewrite pingEffect_eq.
  cbv zeta. unfold initial.
  cbn [setTimeout setAmbienceTimer setTimers timers nextTimer clock fst snd
       app].
  intros tm Hin. apply elem_of_app in Hin as [Hin|Hin].
  - apply glitchTimers_action in Hin as [_ ->]. lia.
  - apply list_elem_of_singleton in Hin. subst tm. cbn. lia.
Qed.

Lemma timersAhead_pingEffect pg s :
  timersAhead s -> timersAhead (pingEffect pg s).
Proof.
  intros H. unfold timersAhead. rewrite pingEffect_eq. cbv zeta.
  cbn [timers clock]. intros tm Hin. apply elem_of_app in Hin as [Hin|Hin].
  - apply H, Hin.
  - apply glitchTimers_action in Hin as [_ ->]. lia.
Qed.

Lemma timersAhead_phaseEffect pg s :
  timersAhead s -> timersAhead (phaseEffect pg s).
Proof.
  intros H.
  destruct (phaseEffect_frame pg s)
    as (new & Ht & Hnew & _ & _ & _ & _ & Hk & _).
  unfold timersAhead. rewrite Ht, Hk. intros tm Hin.
  apply elem_of_app in Hin as [Hin|Hin]; [apply H, Hin|].
  apply (Hnew tm Hin).
Qed.

Lemma timersAhead_runPhaseCleanup s :
  timersAhead s -> timersAhead (runPhaseCleanup s).
Proof.
  intros H. unfold runPhaseCleanup.
  destruct (phaseCleanup s); [|exact H].
  intros tm Hin. cbn in Hin. apply list_elem_of_filter in Hin as [_ Hin].
  apply (H tm Hin).
Qed.

Lemma timersAhead_deliver pg s : timersAhead s -> timersAhead (deliver pg s).
Proof.
  apply (P_deliver timersAhead).
  - apply timersAhead_pingEffect.
  - apply timersAhead_phaseEffect.
  - apply timersAhead_runPhaseCleanup.
  - intros ? ? ? H. exact H.
Qed.

Lemma timersAhead_mount pg : timersAhead (mount pg).
Proof.
  apply (P_mount timersAhead).
  - apply timersAhead_first.
  - apply timersAhead_pingEffect.
  - apply timersAhead_phaseEffect.
  - apply timersAhead_runPhaseCleanup.
  - intros ? ? ? H. exact H.
Qed.

Lemma timersAhead_step e s : timersAhead s -> timersAhead (step e s).
Proof.
  intros H. destruct e as [pg|dt|]; cbn [step].
  - destruct (mounted s); [apply timersAhead_deliver|]; exact H.
  - intros tm Hin. pose proof (advance_fires_all_due dt s tm Hin) as Hd.
    unfold advance. cbn [clock setClock]. exact Hd.
  - destruct (mounted s); [|exact H]. intros tm Hin.
    destruct (unmount_fields s) as (_ & _ & Hk & Ht). rewrite Hk.
    apply H, (Ht tm Hin).
Qed.

Lemma timersAhead_reachable pg0 evs : timersAhead (run evs (mount pg0)).
Proof.
  generalize (timersAhead_mount pg0). generalize (mount pg0).
  induction evs as [|e evs IH]; intros s H; cbn; [exact H|].
  apply IH, timersAhead_step, H.
Qed.

(** X14.  The ambience start effect, [setTimeout(() => ambience.play(),
    400)] with the cleanup [clearTimeout(t)]: whatever is passed at mount
    and whatever happens afterwards, the ambience is started at most once;
    if it has been started, at least 400 ms have passed since the mount; and
    while the component is mounted it has been started exactly if 400 ms
    have passed.  Neither a snapshot nor the fade-out at STABLE cancels or
    repeats the start. *)
Theorem ambience_starts_once_at_400ms (pg0 : option InitProgress)
    (evs : list Event) :
  (cueCount isAmbienceStart (run evs (mount pg0)) <= 1)%nat
  /\ ((1 <= cueCount isAmbienceStart (run evs (mount pg0)))%nat ->
      400 <= clock (run evs (mount pg0)))
  /\ (mounted (run evs (mount pg0)) = true ->
      400 <= clock (run evs (mount pg0)) ->
      cueCount isAmbienceStart (run evs (mount pg0)) = 1%nat).
Proof.
  destruct (ambienceOK_reachable pg0 evs) as (H1 & H2 & _ & H4 & H5).
  pose proof (timersAhead_reachable pg0 evs) as Ha.
  split; [lia|]. split; [exact H5|].
  intros Hm Hk.
  destruct (cueCount isAmbienceStart (run evs (mount pg0))) as [|n] eqn:Hc;
    [|lia].
  destruct (H4 Hm eq_refl) as (tm & Hin & Hact).
  destruct (H1 tm Hin Hact) as (_ & _ & Hdue).
  specialize (Ha tm Hin). lia.
Qed.

(** ** After the unmount *)

Lemma torndown_reachable pg0 evs :
  mounted (run evs (mount pg0)) = false -> torndown (run evs (mount pg0)).
Proof.
  intros Hm. split; [exact Hm|]. intros tm Hin.
  destruct (quiet_reachable pg0 evs) as (_ & _ & Hq).
  destruct (ambienceOK_reachable pg0 evs) as (H1 & _).
  destruct (Hq tm Hin) as [Hd Hh].
  destruct (action tm) eqn:Hact; try contradiction; [reflexivity|].
  destruct (H1 tm Hin Hact) as (_ & Hmt & _). congruence.
Qed.

Lemma torndown_fire tm s :
  torndown s -> tm ∈ timers s ->
  torndown (fire tm s) /\ observed (fire tm s) = observed s.
Proof.
  intros [Hm Hall] Hin. pose proof (Hall tm Hin) as Hact.
  assert (Ht : timers (fire tm s) = filter (λ x, tid x ≠ tid tm) (timers s)).
  { rewrite timers_fire, Hact. apply app_nil_r. }
  assert (Hf : mounted (fire tm s) = false
               /\ observed (fire tm s) = observed s).
  { destruct s as [? ? ? ? ? ? ? ? ? ? ? ? ? [] ?], tm as [? ? []];
      cbn in *; try discriminate; split; reflexivity. }
  destruct Hf as [Hm' Ho]. split; [|exact Ho]. split; [exact Hm'|].
  intros u Hu. rewrite Ht in Hu. apply list_elem_of_filter in Hu as [_ Hu].
  apply Hall, Hu.
Qed.

Lemma torndown_runTimers n d s :
  torndown s ->
  torndown (runTimers n d s) /\ observed (runTimers n d s) = observed s.
Proof.
  revert s. induction n as [|n IH]; intros s H; cbn [runTimers];
    [split; [exact H|reflexivity]|].
  destruct (earliest (timers s)) as [tm|] eqn:He;
    [|split; [exact H|reflexivity]].
  destruct (due tm <=? d); [|split; [exact H|reflexivity]].
  destruct (torndown_fire tm s H (earliest_elem _ _ He)) as [Ht Ho].
  destruct (IH _ Ht) as [Ht' Ho']. split; [exact Ht'|].
  rewrite Ho'. exact Ho.
Qed.

Lemma torndown_step e s :
  torndown s -> torndown (step e s) /\ observed (step e s) = observed s.
Proof.
  intros H. pose proof H as [Hm _]. destruct e as [pg|dt|]; cbn [step];
    rewrite ?Hm; try (split; [exact H|reflexivity]).
  unfold advance.
  destruct (torndown_runTimers (totalWeight (timers s))
              (clock s + Z.max 0 dt) s H) as [Ht Ho].
  split; [|rewrite <- Ho; reflexivity].
  destruct Ht as [Hm' Hall]. split; [exact Hm'|exact Hall].
Qed.

Lemma torndown_run evs s :
  torndown s -> torndown (run evs s) /\ observed (run evs s) = observed s.
Proof.
  revert s. induction evs as [|e evs IH]; intros s H; cbn;
    [split; [exact H|reflexivity]|].
  destruct (torndown_step e s H) as [Ht Ho].
  destruct (IH _ Ht) as [Ht' Ho']. split; [exact Ht'|].
  fold (run evs (step e s)). rewrite Ho'. exact Ho.
Qed.

(** X15.  After the component has been unmounted nothing it shows or plays
    changes any more: whatever happened before the unmount and whatever
    happens after it (snapshots, time passing, a second unmount), the phase,
    the fade-out flag, the glitch flag, the sounds played, the number of
    onDone calls and the module states last seen stay what they were at the
    unmount.  The cleanups have cancelled the ambience start, and the glitch
    timers that still fire find the component unmounted. *)
Theorem nothing_happens_after_unmount (pg0 : option InitProgress)
    (before after : list Event) :
  observed (run after (run (before ++ [Unmount]) (mount pg0)))
  = observed (run (before ++ [Unmount]) (mount pg0))
  /\ mounted (run after (run (before ++ [Unmount]) (mount pg0))) = false.
Proof.
  assert (Hm : mounted (run (before ++ [Unmount]) (mount pg0)) = false).
  { rewrite run_app. cbn [run foldl step].
    destruct (mounted (run before (mount pg0))) eqn:Hmt; [|exact Hmt].
    apply (unmount_fields (run before (mount pg0))). }
  pose proof (torndown_reachable pg0 (before ++ [Unmount]) Hm) as Ht.
  destruct (torndown_run after _ Ht) as [[Hm' _] Ho].
  split; [exact Ho|exact Hm'].
Qed.

(** * The simulator driving the screen *)

Lemma fire_keeps tm s :
  mounted (fire tm s) = mounted s
  /\ renderedPg (fire tm s) = renderedPg s
  /\ prevModulesRef (fire tm s) = prevModulesRef s.
Proof.
  destruct s as [? ? ? ? ? ? ? ? ? ? ? ? ? [] ?], tm as [? ? []];
    repeat split.
Qed.

Lemma pings_fire m tm s : pings m (fire tm s) = pings m s.
Proof.
  unfold pings. rewrite cues_fire, List.filter_app, length_app.
  destruct (action tm); cbn; lia.
Qed.

Lemma runTimers_keeps m n d s :
  mounted (runTimers n d s) = mounted s
  /\ renderedPg (runTimers n d s) = renderedPg s
  /\ prevModulesRef (runTimers n d s) = prevModulesRef s
  /\ pings m (runTimers n d s) = pings m s.
Proof.
  revert s. induction n as [|n IH]; intros s; cbn [runTimers];
    [repeat split|].
  destruct (earliest (timers s)) as [tm|]; [|repeat split].
  destruct (due tm <=? d); [|repeat split].
  destruct (IH (fire tm s)) as (-> & -> & -> & ->).
  destruct (fire_keeps tm s) as (-> & -> & ->).
  rewrite pings_fire. repeat split.
Qed.

Lemma advance_keeps m dt s :
  mounted (advance dt s) = mounted s
  /\ renderedPg (advance dt s) = renderedPg s
  /\ prevModulesRef (advance dt s) = prevModulesRef s
  /\ pings m (advance dt s) = pings m s.
Proof. unfold advance. apply (runTimers_keeps m). Qed.

Lemma mounted_deliver pg s : mounted (deliver pg s) = mounted s.
Proof.
  apply (P_deliver (fun x => mounted x = mounted s)); [| | | |reflexivity].
  - intros pg' x H. rewrite pingEffect_eq. exact H.
  - intros pg' x H.
    destruct (phaseEffect_frame pg' x) as (_ & _ & _ & _ & _ & _ & -> & _).
    exact H.
  - intros x H. unfold runPhaseCleanup. destruct (phaseCleanup x); exact H.
  - intros pg' p x H. exact H.
Qed.

Lemma deliver_pings m pg s :
  m ∈ MODULES ->
  pings m (deliver pg s) =
  (pings m s +
   if pingDepsChanged (renderedPg s) pg
      && rising (prevModulesRef s) (modulesOrEmpty pg) m
   then 1 else 0)%nat
  /\ prevModulesRef (deliver pg s) =
     (if pingDepsChanged (renderedPg s) pg then modulesOrEmpty pg
      else prevModulesRef s).
Proof.
  intros Hm. unfold deliver.
  destruct (rerender_pings 4 m pg (commit pg s) Hm (renderedPg_commit pg s))
    as [-> ->].
  rewrite pings_commit, prevModulesRef_commit by exact Hm.
  split; reflexivity.
Qed.

(** Every simulated snapshot carries a fresh [modules] object, so both
    effects run when it is delivered. *)
Lemma fresh_object_runs_effects o t s :
  olderThan o s ->
  pingDepsChanged (renderedPg s) (Some (simSnapshot o t)) = true
  /\ phaseDepsChanged (renderedPg s) (Some (simSnapshot o t))
       (renderedPhase s) (phase s) = true.
Proof.
  intros H. unfold olderThan in H.
  assert (Hs : sameObject (renderedPg s ≫= modules)
                 (Some (simSnapshot o t) ≫= modules) = false).
  { cbn [mbind option_bind simSnapshot modules].
    destruct (renderedPg s ≫= modules) as [ob|]; [|reflexivity].
    cbn. apply Nat.eqb_neq. specialize (H ob eq_refl). lia. }
  unfold pingDepsChanged, phaseDepsChanged. rewrite Hs.
  rewrite andb_false_r. split; reflexivity.
Qed.

Lemma olderThan_deliver o t s :
  olderThan (S o) (deliver (Some (simSnapshot o t)) s).
Proof.
  unfold olderThan. rewrite renderedPg_deliver.
  cbn [mbind option_bind simSnapshot modules]. intros ob [= <-]. cbn. lia.
Qed.

Lemma simPct_mono t u : (t <= u)%Q -> (simPct t <= simPct u)%Q.
Proof.
  intros H. unfold simPct. apply Q.min_le_compat_l.
  unfold ms, Qdiv. change (/ 12000)%Q with (1 # 12000)%Q. lra.
Qed.

Lemma nextPhase_sim o t ph :
  nextPhase (Some (simSnapshot o t)) ph =
  if Qle_bool 0.85 (simPct t) then STABLE
  else if phase_val ph <=? phase_val ACTIVATION then INTEGRATION else ph.
Proof.
  unfold nextPhase, guardStable, guardModules, guardActivation.
  rewrite Sim.anyModuleData_true, Sim.allReady_eq. cbn [sysReady].
  rewrite Sim.systemReady_eq, orb_true_r.
  destruct (Qle_bool 0.85 (simPct t)) eqn:H85.
  - rewrite orb_true_r. destruct ph; reflexivity.
  - assert (H95 : Qle_bool 0.95 (simPct t) = false).
    { destruct (Qle_bool 0.95 (simPct t)) eqn:H; [|reflexivity].
      rewrite (Sim.Qle_bool_mono 0.85 0.95 _ ltac:(lra) H) in H85.
      discriminate. }
    rewrite H95. destruct ph; reflexivity.
Qed.

Lemma phase_sim_deliver o t s :
  olderThan o s ->
  phase (deliver (Some (simSnapshot o t)) s) =
  if Qle_bool 0.85 (simPct t) then STABLE
  else if phase_val (phase s) <=? phase_val ACTIVATION then INTEGRATION
       else phase s.
Proof.
  intros H. rewrite phase_deliver.
  rewrite (proj2 (fresh_object_runs_effects o t s H)). apply nextPhase_sim.
Qed.

Lemma stop_means_reached c t :
  (c <= 1)%Q -> Qle_bool 1 (simPct t) = true -> Qle_bool c (simPct t) = true.
Proof. intros Hc. apply Sim.Qle_bool_mono, Hc. Qed.

Lemma simulated_phase frames :
  forall o gaps s,
    mounted s = true -> olderThan o s ->
    phase (run (simEvents gaps (simRun o frames)) s) =
    match frames with
    | [] => phase s
    | _ =>
        if reached 0.85 frames then STABLE
        else if phase_val (phase s) <=? phase_val ACTIVATION then INTEGRATION
             else phase s
    end.
Proof.
  induction frames as [|t rest IH]; intros o gaps s Hm Ho; [reflexivity|].
  cbn [simRun].
  set (tail := if Qle_bool 1 (simPct t) then [] else simRun (S o) rest).
  assert (Hold : forall s0,
             mounted s0 = true -> olderThan o s0 -> phase s0 = phase s ->
             forall gs,
             phase (run (simEvents gs tail)
                      (deliver (Some (simSnapshot o t)) s0)) =
             if reached 0.85 (t :: rest) then STABLE
             else if phase_val (phase s) <=? phase_val ACTIVATION
                  then INTEGRATION else phase s).
  { intros s0 Hm0 Ho0 Hp0 gs. unfold tail, reached. cbn [existsb].
    fold (reached 0.85 rest).
    pose proof (phase_sim_deliver o t s0 Ho0) as Hd. rewrite Hp0 in Hd.
    destruct (Qle_bool 1 (simPct t)) eqn:Hstop.
    - rewrite (stop_means_reached 0.85 t ltac:(lra) Hstop) in *.
      cbn [simEvents run foldl]. exact Hd.
    - rewrite (IH (S o) gs _); [|rewrite mounted_deliver; exact Hm0
                                |apply olderThan_deliver].
      rewrite Hd.
      destruct (Qle_bool 0.85 (simPct t)); cbn [orb];
        [destruct rest; [reflexivity|destruct (reached 0.85 _); reflexivity]|].
      destruct rest as [|u rest']; [reflexivity|].
      destruct (reached 0.85 (u :: rest')); [reflexivity|].
      destruct (phase s); reflexivity. }
  destruct gaps as [|g gs]; cbn [simEvents run foldl step]; rewrite ?Hm.
  - apply (Hold s Hm Ho eq_refl).
  - fold (run (simEvents gs tail)).
    destruct (advance_keeps "" g s) as (Hma & Hra & _ & _).
    rewrite Hma, Hm.
    apply Hold; [rewrite Hma; exact Hm| |apply phase_advance].
    unfold olderThan. rewrite Hra. exact Ho.
Qed.

(** X16.  The simulator driving the screen.  Mounted without progress and
    fed the snapshots the simulator emits over any sequence of animation
    frames, with any amount of time passing between them, the screen ends
    in AWAKENING if no frame ran, in STABLE if some frame came at 85 % of
    the simulated duration or later (all four modules are ready then, and
    the phase effect accepts that in place of [systemReady]), and in
    MODULES otherwise: the simulator's own [systemReady] at 95 % comes after
    the screen has turned STABLE. *)
Theorem simulated_run_phase (o : nat) (frames : list Q) (gaps : list Z) :
  phase (run (simEvents gaps (simRun o frames)) (mount None)) =
  match frames with
  | [] => AWAKENING
  | _ => if reached 0.85 frames then STABLE else INTEGRATION
  end.
Proof.
  rewrite simulated_phase.
  - rewrite mount_None_eq. reflexivity.
  - rewrite mount_None_eq. reflexivity.
  - unfold olderThan. rewrite mount_None_eq. discriminate.
Qed.

Lemma lookup_simModules c m pct :
  (c, m) ∈ stages -> truthy (simModules pct) m = Qle_bool c pct.
Proof.
  intros H. unfold truthy. rewrite Sim.modules_eq. unfold stages in H.
  repeat (apply elem_of_cons in H as [H|H];
          [injection H as -> ->; by simplify_map_eq|]).
  inversion H.
Qed.

Lemma stage_module c m : (c, m) ∈ stages -> m ∈ MODULES /\ (c <= 1)%Q.
Proof.
  intros H. unfold stages in H.
  repeat (apply elem_of_cons in H as [H|H];
          [injection H as -> ->;
           split; [apply (bool_decide_unpack _); vm_compute; exact I|lra]|]).
  inversion H.
Qed.

Lemma simulated_pings c m frames :
  (c, m) ∈ stages ->
  forall o gaps s,
    mounted s = true -> olderThan o s ->
    (truthy (prevModulesRef s) m = true ->
     Forall (λ t, Qle_bool c (simPct t) = true) frames) ->
    StronglySorted Qle frames ->
    pings m (run (simEvents gaps (simRun o frames)) s) =
    (pings m s
     + if negb (truthy (prevModulesRef s) m) && reached c frames
       then 1 else 0)%nat.
Proof.
  intros Hst. destruct (stage_module c m Hst) as [Hmod Hc1].
  induction frames as [|t rest IH]; intros o gaps s Hm Ho Hprev Hsorted.
  { cbn. rewrite andb_false_r. lia. }
  cbn [simRun].
  set (tail := if Qle_bool 1 (simPct t) then [] else simRun (S o) rest).
  apply StronglySorted_inv in Hsorted as [Hsorted Hhd].
  assert (Hold : forall s0,
             mounted s0 = true -> olderThan o s0 ->
             prevModulesRef s0 = prevModulesRef s -> pings m s0 = pings m s ->
             forall gs,
             pings m (run (simEvents gs tail)
                        (deliver (Some (simSnapshot o t)) s0)) =
             (pings m s
              + if negb (truthy (prevModulesRef s) m) && reached c (t :: rest)
                then 1 else 0)%nat).
  { intros s0 Hm0 Ho0 Hr0 Hp0 gs.
    destruct (deliver_pings m (Some (simSnapshot o t)) s0 Hmod) as [Hd Hr].
    rewrite (proj1 (fresh_object_runs_effects o t s0 Ho0)) in Hd, Hr.
    cbn [andb] in Hd. rewrite Hr0, Hp0 in Hd.
    change (modulesOrEmpty (Some (simSnapshot o t)))
      with (simModules (simPct t)) in Hd, Hr.
    unfold rising in Hd. rewrite (lookup_simModules c m _ Hst) in Hd.
    unfold reached. cbn [existsb]. fold (reached c rest).
    unfold tail. destruct (Qle_bool 1 (simPct t)) eqn:Hstop.
    - rewrite (stop_means_reached c t Hc1 Hstop) in *. cbn [orb].
      cbn [simEvents run foldl]. exact Hd.
    - rewrite (IH (S o) gs _); [|rewrite mounted_deliver; exact Hm0
                                |apply olderThan_deliver| |exact Hsorted].
      + rewrite Hd, Hr, (lookup_simModules c m _ Hst).
        destruct (truthy (prevModulesRef s) m) eqn:Hb.
        * specialize (Hprev eq_refl). apply Forall_cons in Hprev as [-> _].
          cbn. lia.
        * destruct (Qle_bool c (simPct t)); cbn;
            [lia|destruct (reached c rest); lia].
      + rewrite Hr, (lookup_simModules c m _ Hst). intros Hready.
        apply Forall_forall. intros u Hu.
        rewrite Forall_forall in Hhd. specialize (Hhd u Hu).
        apply Qle_bool_iff. apply Qle_bool_iff in Hready.
        pose proof (simPct_mono t u Hhd). lra. }
  destruct gaps as [|g gs]; cbn [simEvents run foldl step]; rewrite ?Hm.
  - apply (Hold s Hm Ho eq_refl eq_refl).
  - fold (run (simEvents gs tail)).
    destruct (advance_keeps m g s) as (Hma & Hra & Hpa & Hna).
    rewrite Hma, Hm.
    apply Hold; [rewrite Hma; exact Hm| |exact Hpa|exact Hna].
    unfold olderThan. rewrite Hra. exact Ho.
Qed.

(** X17.  The simulator driving the ping.  Animation frames come in time
    order; then, over a whole simulated run with any amount of time passing
    between the frames, the ping of each module is played once if some
    frame reached the module's checkpoint and not at all otherwise: the
    simulator never takes a module back, so the ping effect sees one rising
    edge per module. *)
Theorem simulated_pings_once (o : nat) (frames : list Q) (gaps : list Z)
    (c : Q) (m : string) :
  (c, m) ∈ stages ->
  StronglySorted Qle frames ->
  pings m (run (simEvents gaps (simRun o frames)) (mount None))
  = if reached c frames then 1%nat else 0%nat.
Proof.
  intros Hst Hsorted.
  rewrite (simulated_pings c m frames Hst o gaps (mount None)).
  - rewrite mount_None_eq. reflexivity.
  - rewrite mount_None_eq. reflexivity.
  - unfold olderThan. rewrite mount_None_eq. discriminate.
  - rewrite mount_None_eq. discriminate.
  - exact Hsorted.
Qed.

Lemma simulated_pings_once_witness :
  (0.4%Q, "Voice Engine") ∈ stages
  /\ StronglySorted Qle [2400; 6000; 12000]%Q
  /\ pings "Voice Engine"
       (run (simEvents [16; 3600] (simRun 0 [2400; 6000; 12000]%Q))
          (mount None)) = 1%nat.
Proof.
  assert (Hst : (0.4%Q, "Voice Engine") ∈ stages)
    by (apply list_elem_of_further, list_elem_of_here).
  assert (Hs : StronglySorted Qle [2400; 6000; 12000]%Q).
  { repeat constructor; vm_compute; discriminate. }
  split; [exact Hst|]. split; [exact Hs|].
  rewrite (simulated_pings_once 0 [2400; 6000; 12000]%Q [16; 3600]
             0.4 "Voice Engine" Hst Hs).
  vm_compute. reflexivity.
Defined.
